(** * urlmap: URL decomposition and multi-URL comparison

    A shallow embedding of the two comparison components of the repository,
    [src/src/URLParser.tsx] (module [URLParser] below) and the later
    "diffchecker" revision of the same component ([src/unnamed/part_003],
    module [DiffChecker] below), together with the [ParsedURL] interface
    ([src/unnamed/part_001]).

    The React state [parsedUrls] that the source closes over is passed
    explicitly.  JavaScript objects used as dictionaries are finite maps
    (own string keys only); [undefined] is [None]; an expression that may
    throw has a [completion].  The platform's [URL] constructor is a
    parameter of [parseUrl]; module [Platform] is a reference
    implementation of it for the plain part of the URL syntax, on which the
    concrete inputs of the specification are evaluated. *)

From Stdlib Require Import Ascii String.
From stdpp Require Import base option list strings gmap.

(** ** JavaScript values that the engine manipulates *)

(** What a [catch (error)] clause can receive: an [Error] instance carrying
    a [message], or any other thrown value. *)
Inductive thrown : Type :=
  | ErrorObject (message : string)
  | NonError.

(** Result of evaluating an expression inside [try { ... }]. *)
Inductive completion (A : Type) : Type :=
  | Normal (a : A)
  | Throw (e : thrown).
Arguments Normal {A} a.
Arguments Throw {A} e.

#[global] Instance completion_ret : MRet completion := @Normal.
#[global] Instance completion_bind : MBind completion :=
  λ A B k c, match c with Normal a => k a | Throw e => Throw e end.

(** [try { body } catch (error) { handler }]. *)
Definition try_catch {A : Type} (body : completion A)
    (handler : thrown → completion A) : completion A :=
  match body with
  | Normal a => Normal a
  | Throw error => handler error
  end.

(** A value produced by [x || null] or [x || "-"] for a property read [x]
    on a dictionary of strings: [null], a string, or, where the read found
    no own property but a member of [Object.prototype], that inherited
    member (a function or the prototype object, identified by its name),
    which the declared type [string | null] does not foresee. *)
Inductive nullable : Type :=
  | Null
  | Str (s : string)
  | Inherited (name : string).

#[global] Instance thrown_eq_dec : EqDecision thrown.
Proof. solve_decision. Defined.
#[global] Instance nullable_eq_dec : EqDecision nullable.
Proof. solve_decision. Defined.

(** Truthiness of a [string | undefined]: [undefined] and the empty string
    are falsy, every other string is truthy. *)
Definition truthy (v : option string) : bool :=
  match v with
  | Some s => negb (String.eqb s "")
  | None => false
  end.

(** [v || d] for [v : string | undefined] and a string [d]. *)
Definition or_default (v : option string) (d : string) : string :=
  match v with
  | Some s => if truthy v then s else d
  | None => d
  end.

(** [v || null] for [v : string | undefined]. *)
Definition or_null (v : option string) : nullable :=
  match v with
  | Some s => if truthy v then Str s else Null
  | None => Null
  end.

(** [v !== undefined ? v : ""]. *)
Definition defined_or_empty (v : option string) : string :=
  match v with
  | Some s => s
  | None => ""
  end.

(** [a !== b] on primitive values; the right operand may be [undefined]
    (an array read out of range). *)
Definition strict_ne `{EqDecision A} (a : A) (b : option A) : bool :=
  bool_decide (Some a ≠ b).

(** [Array.prototype.reduce(callback, init)], the callback receiving the
    accumulator, the element and its index. *)
Fixpoint reduce_from {A B : Type} (f : B → A → nat → B) (i : nat)
    (l : list A) (acc : B) : B :=
  match l with
  | [] => acc
  | x :: t => reduce_from f (S i) t (f acc x i)
  end.

Definition reduce {A B : Type} (f : B → A → nat → B) (l : list A) (init : B) : B :=
  reduce_from f 0 l init.

(** [Array.prototype.some]. *)
Definition some {A : Type} (p : A → bool) (l : list A) : bool := existsb p l.

(** ** The platform's URL object *)

(** The getters of a WHATWG [URL] instance that the source reads.
    [URL_searchParams] is the sequence that [searchParams.forEach] visits,
    in order, as (key, value) pairs. *)
Record URL : Type := mkURL {
  URL_href : string;
  URL_protocol : string;
  URL_username : string;
  URL_password : string;
  URL_host : string;
  URL_hostname : string;
  URL_port : string;
  URL_pathname : string;
  URL_search : string;
  URL_searchParams : list (string * string);
  URL_hash : string
}.

#[global] Instance URL_eq_dec : EqDecision URL.
Proof. solve_decision. Defined.

(** ** models/ParsedURL.ts *)

(** Every property of the interface is optional. *)
Record ParsedURL : Type := mkParsedURL {
  href : option string;
  auth : option string;
  protocol : option string;
  username : option string;
  password : option string;
  host : option string;
  hostname : option string;
  port : option string;
  pathname : option string;
  search : option string;
  searchParams : option (gmap string string);
  hash : option string;
  error : option string
}.

#[global] Instance ParsedURL_eq_dec : EqDecision ParsedURL.
Proof. solve_decision. Defined.

(** The object literal [{ error: errorMessage }]. *)
Definition error_record (errorMessage : string) : ParsedURL :=
  {| href := None; auth := None; protocol := None; username := None;
     password := None; host := None; hostname := None; port := None;
     pathname := None; search := None; searchParams := None; hash := None;
     error := Some errorMessage |}.

(** The string-valued members of [keyof ParsedURL].  Every caller of the
    two diff functions passes one of these; [searchParams], the only
    member that is not a string, is never passed. *)
Inductive ComponentKey : Type :=
  | key_href | key_auth | key_protocol | key_username | key_password
  | key_host | key_hostname | key_port | key_pathname | key_search
  | key_hash | key_error.

#[global] Instance ComponentKey_eq_dec : EqDecision ComponentKey.
Proof. solve_decision. Defined.

(** [url[key]]. *)
Definition get (url : ParsedURL) (key : ComponentKey) : option string :=
  match key with
  | key_href => href url
  | key_auth => auth url
  | key_protocol => protocol url
  | key_username => username url
  | key_password => password url
  | key_host => host url
  | key_hostname => hostname url
  | key_port => port url
  | key_pathname => pathname url
  | key_search => search url
  | key_hash => hash url
  | key_error => error url
  end.

(** The own property [param] of [url.searchParams], if the record has a
    [searchParams] with such a key: what [Object.keys] enumerates. *)
Definition param_lookup (url : ParsedURL) (param : string) : option string :=
  searchParams url ≫= (.!! param).

(** The own property names of [Object.prototype] (ECMAScript, with its
    annex B), the prototype of every object literal.  Each names a
    function, except [__proto__], an accessor whose getter returns the
    prototype and whose setter ignores a value that is neither an object
    nor [null]. *)
Definition Object_prototype_names : list string :=
  ["constructor"; "__defineGetter__"; "__defineSetter__"; "hasOwnProperty";
   "__lookupGetter__"; "__lookupSetter__"; "isPrototypeOf";
   "propertyIsEnumerable"; "toString"; "valueOf"; "__proto__";
   "toLocaleString"].

(** Result of the property read [object[name]] on a dictionary of strings
    created as [{}]: [undefined], an own string, or a member inherited from
    [Object.prototype]. *)
Inductive member : Type :=
  | NoMember
  | OwnString (s : string)
  | FromPrototype (name : string).

#[global] Instance member_eq_dec : EqDecision member.
Proof. solve_decision. Defined.

(** [object[name]]: the own property, else the prototype's. *)
Definition read (object : gmap string string) (name : string) : member :=
  match object !! name with
  | Some s => OwnString s
  | None =>
      if bool_decide (name ∈ Object_prototype_names) then FromPrototype name
      else NoMember
  end.

(** [object[key] = value] for a string [value]: a new or updated own
    property, except for the key [__proto__], where the inherited setter
    runs and leaves the object as it is. *)
Definition assign (key value : string) (object : gmap string string)
    : gmap string string :=
  if decide (key = "__proto__") then object else <[key := value]> object.

(** [url.searchParams?.[param]]: [undefined] when the record has no
    [searchParams]. *)
Definition param_read (url : ParsedURL) (param : string) : member :=
  match searchParams url with
  | Some object => read object param
  | None => NoMember
  end.

(** [m || null] and [m || "-"] for a property read [m]; an inherited member
    is truthy. *)
Definition member_or_null (m : member) : nullable :=
  match m with
  | NoMember => or_null None
  | OwnString s => or_null (Some s)
  | FromPrototype name => Inherited name
  end.

Definition member_or_dash (m : member) : nullable :=
  match m with
  | NoMember => Str (or_default None "-")
  | OwnString s => Str (or_default (Some s) "-")
  | FromPrototype name => Inherited name
  end.

(** The loop shared by every revision of [parseUrl]:
    [parsed.searchParams.forEach((value, key) => { searchParams[key] = value; })]
    starting from the empty object. *)
Definition collect_searchParams (parsed : URL) : gmap string string :=
  foldl (λ searchParams kv, assign kv.1 kv.2 searchParams) ∅
        (URL_searchParams parsed).

(** [error instanceof Error ? error.message : "Unknown error"]. *)
Definition error_message (e : thrown) : string :=
  match e with
  | ErrorObject message => message
  | NonError => "Unknown error"
  end.

(** ** src/src/URLParser.tsx *)

Module URLParser.
Section WithPlatform.
(** [new URL(inputUrl)]. *)
Variable new_URL : string → completion URL.

Definition parseUrl (inputUrl : string) : completion ParsedURL :=
  try_catch
    (parsed ← new_URL inputUrl;
     let searchParams := collect_searchParams parsed in
     mret {| href := Some (URL_href parsed);
             auth := None;
             protocol := Some (URL_protocol parsed);
             username := Some (URL_username parsed);
             password := Some (URL_password parsed);
             host := Some (URL_host parsed);
             hostname := Some (URL_hostname parsed);
             port := Some (URL_port parsed);
             pathname := Some (URL_pathname parsed);
             search := Some (URL_search parsed);
             searchParams := Some searchParams;
             hash := Some (URL_hash parsed);
             error := None |})
    (λ error,
       let errorMessage := error_message error in
       mret (error_record errorMessage)).

(** [list.map(parseUrl)] in [handleCompare]. *)
Definition parseAll (lines : list string) : completion (list ParsedURL) :=
  mapM parseUrl lines.
End WithPlatform.

(** The keys of [colorMap], the rows of the component table. *)
Definition colorMap_keys : list ComponentKey :=
  [key_protocol; key_username; key_password; key_hostname; key_port;
   key_pathname; key_search; key_hash].

Definition getDiffMap (parsedUrls : list ParsedURL) (key : ComponentKey)
    : gmap nat bool :=
  let values := map (λ url, or_default (get url key) "-") parsedUrls in
  let baseValue := values !! 0 in
  reduce (λ map val i, <[i := strict_ne val baseValue]> map) values ∅.

(** [generatePartMap]: the displayed parts of one URL, none for an entry
    with a (truthy) [error]. *)
Definition generatePartMap (url : ParsedURL) : gmap string string :=
  if truthy (error url) then ∅ else
  list_to_map
    [("protocol", or_default (protocol url) "");
     ("auth",
      if truthy (username url)
      then defined_or_empty (username url)
             +:+ (if truthy (password url)
                  then ":" +:+ defined_or_empty (password url) else "")
             +:+ "@"
      else "");
     ("hostname", or_default (hostname url) "");
     ("port", if truthy (port url) then ":" +:+ defined_or_empty (port url) else "");
     ("pathname", or_default (pathname url) "");
     ("search", or_default (search url) "");
     ("hash", or_default (hash url) "")].

(** The [parts] displayed side by side, in order. *)
Definition parts : list string :=
  ["protocol"; "auth"; "hostname"; "port"; "pathname"; "search"; "hash"].

(** [SideBySideDiff]: for exactly two URLs, the [isDifferent] flag of each
    part, [url1Parts[part] !== url2Parts[part]]; [None] is the "requires
    exactly 2 URLs" return. *)
Definition SideBySideDiff (parsedUrls : list ParsedURL)
    : option (list (string * bool)) :=
  match parsedUrls with
  | [url1; url2] =>
      let url1Parts := generatePartMap url1 in
      let url2Parts := generatePartMap url2 in
      Some (map (λ part,
                   let isDifferent :=
                     bool_decide (url1Parts !! part ≠ url2Parts !! part) in
                   (part, isDifferent))
                parts)
  | _ => None
  end.

(** Parameter names of the expanded query-parameter table:
    [new Set(parsedUrls.flatMap((url) => Object.keys(url.searchParams || {})))]. *)
Definition paramNames (parsedUrls : list ParsedURL) : gset string :=
  list_to_set
    (flat_map (λ url, elements (dom (default ∅ (searchParams url))))
              parsedUrls).

(** One row of that table: per URL the displayed value and the
    [isDifferent] flag. *)
Definition paramRow (parsedUrls : list ParsedURL) (param : string)
    : list (nullable * bool) :=
  map (λ url,
         let value := member_or_dash (param_read url param) in
         let allValues :=
           map (λ u, member_or_dash (param_read u param)) parsedUrls in
         let isDifferent := some (λ v, strict_ne v (allValues !! 0)) allValues in
         (value, isDifferent))
      parsedUrls.

(** The condition under which the expanded query-parameter rows are
    rendered:
    [parsedUrls.some((url) => url.searchParams
       && Object.keys(url.searchParams || {}).length > 0)]. *)
Definition showParams (parsedUrls : list ParsedURL) : bool :=
  some (λ url,
          match searchParams url with
          | Some _ =>
              bool_decide
                (0 < length (elements (dom (default ∅ (searchParams url)) : gset string)))
          | None => false
          end)
       parsedUrls.

Section WithStrings.
Variable new_URL : string → completion URL.
(** [s.split("\n")] and [s.trim()] of the platform. *)
Variable split_lines : string → list string.
Variable trim : string → string.

(** [handleCompare]: the new values of the states [urls] and [parsedUrls]
    for the text of the input area. *)
Definition handleCompare (inputText : string)
    : completion (list string * list ParsedURL) :=
  let lines :=
    filter (λ u, truthy (Some u) = true) (map (λ u, trim u) (split_lines inputText)) in
  results ← mapM (parseUrl new_URL) lines;
  mret (lines, results).
End WithStrings.
End URLParser.

(** ** src/unnamed/part_003: the diffchecker revision *)

Module DiffChecker.
Section WithPlatform.
Variable new_URL : string → completion URL.

Definition parseUrl (inputUrl : string) : completion ParsedURL :=
  try_catch
    (parsed ← new_URL inputUrl;
     let searchParams := collect_searchParams parsed in
     let auth :=
       if truthy (Some (URL_username parsed)) || truthy (Some (URL_password parsed))
       then URL_username parsed
              +:+ (if truthy (Some (URL_password parsed))
                   then ":" +:+ URL_password parsed else "")
              +:+ "@"
       else "" in
     mret {| href := Some (URL_href parsed);
             protocol := Some (URL_protocol parsed);
             auth := Some auth;
             username := Some (URL_username parsed);
             password := Some (URL_password parsed);
             host := Some (URL_host parsed);
             hostname := Some (URL_hostname parsed);
             port := Some (URL_port parsed);
             pathname := Some (URL_pathname parsed);
             search := Some (URL_search parsed);
             searchParams := Some searchParams;
             hash := Some (URL_hash parsed);
             error := None |})
    (λ error,
       let errorMessage := error_message error in
       mret (error_record errorMessage)).

(** [urlList.map(parseUrl)] in the effect that re-parses on every change. *)
Definition parseAll (urlList : list string) : completion (list ParsedURL) :=
  mapM parseUrl urlList.
End WithPlatform.

Definition getComponentDiffs (parsedUrls : list ParsedURL) (key : ComponentKey)
    : gmap nat bool :=
  if decide (length parsedUrls = 0) then ∅ else
  let values := map (λ url, defined_or_empty (get url key)) parsedUrls in
  let baseValue := values !! 0 in
  reduce (λ map val i, <[i := strict_ne val baseValue]> map) values ∅.

(** [componentsToCompare], by key. *)
Definition componentsToCompare : list ComponentKey :=
  [key_protocol; key_auth; key_hostname; key_port; key_pathname;
   key_search; key_hash].

(** [hasDifferences]. *)
Definition hasDifferences (parsedUrls : list ParsedURL) : bool :=
  some (λ comp,
          let diffs := getComponentDiffs parsedUrls comp in
          some (λ isDiff : bool, isDiff) (map snd (map_to_list diffs)))
       componentsToCompare.

(** [allSearchParams]: every key of every entry's [searchParams] added to
    an initially empty [Set]. *)
Definition allSearchParams (parsedUrls : list ParsedURL) : gset string :=
  foldl (λ acc url,
           match searchParams url with
           | Some sp => foldl (λ acc key, acc ∪ {[key]}) acc (elements (dom sp))
           | None => acc
           end)
        ∅ parsedUrls.

(** The value compared for [param] in each entry:
    [parsedUrls.map((url) => url.searchParams?.[param] || null)]. *)
Definition paramValues (parsedUrls : list ParsedURL) (param : string)
    : list nullable :=
  map (λ url, member_or_null (param_read url param)) parsedUrls.

(** One row of the query-parameter comparison: per URL the displayed value
    and the [isDifferent] flag. *)
Definition paramRow (parsedUrls : list ParsedURL) (param : string)
    : list (nullable * bool) :=
  let values := paramValues parsedUrls param in
  let firstValue := values !! 0 in
  map (λ url,
         let value := member_or_null (param_read url param) in
         let isDifferent := strict_ne value firstValue in
         (value, isDifferent))
      parsedUrls.

(** What [DiffCheckerView] computes before rendering; [None] is the
    "Need at least 2 URLs" early return. *)
Record view : Type := mkView {
  view_hasDifferences : bool;
  view_components : list (ComponentKey * gmap nat bool);
  view_allSearchParams : gset string;
  view_params : string → list (nullable * bool)
}.

Definition DiffCheckerView (parsedUrls : list ParsedURL) : option view :=
  if decide (length parsedUrls < 2) then None else
  Some {| view_hasDifferences := hasDifferences parsedUrls;
          view_components :=
            map (λ component, (component, getComponentDiffs parsedUrls component))
                componentsToCompare;
          view_allSearchParams := allSearchParams parsedUrls;
          view_params := paramRow parsedUrls |}.

(** [handleAddUrl]: the new value of the state [urlList]. *)
Definition handleAddUrl (urlList : list string) : list string :=
  urlList ++ [""].

(** [handleRemoveUrl]: [splice(index, 1)] on a copy when more than one
    input is left, no state change otherwise.  [splice] removes nothing at
    an index past the end. *)
Definition handleRemoveUrl (index : nat) (urlList : list string) : list string :=
  if decide (1 < length urlList) then delete index urlList else urlList.

(** [handleUrlChange] for the index of an existing input, the only way it
    is called.  [None] stands for an index past the end, where the
    assignment would make a sparse array; that case is not modelled. *)
Definition handleUrlChange (index : nat) (value : string) (urlList : list string)
    : option (list string) :=
  if decide (index < length urlList) then Some (<[index := value]> urlList)
  else None.

(** The condition under which any result is rendered:
    [parsedUrls.some((url) => !url.error)]. *)
Definition anyValid (parsedUrls : list ParsedURL) : bool :=
  some (λ url, negb (truthy (error url))) parsedUrls.

(** The [components] of [ComponentTable]. *)
Definition components : list ComponentKey :=
  [key_protocol; key_username; key_password; key_hostname; key_port;
   key_pathname; key_search; key_hash].

(** [ComponentTable]: per component the cells of its row, each with the
    displayed value and the flag [diffs[i]] that selects the highlight. *)
Definition ComponentTable (parsedUrls : list ParsedURL)
    : list (ComponentKey * list (string * bool)) :=
  map (λ component,
         let diffs := getComponentDiffs parsedUrls component in
         (component,
          imap (λ i url,
                  let value := or_default (get url component) "-" in
                  let isDifferent := default false (diffs !! i) in
                  (value, isDifferent))
               parsedUrls))
      components.

(** One row of [QueryParamsView]. *)
Definition queryParamRow (parsedUrls : list ParsedURL) (param : string)
    : list (nullable * bool) :=
  let values := map (λ url, member_or_null (param_read url param)) parsedUrls in
  let firstValue := values !! 0 in
  let hasDiff := some (λ v, strict_ne v firstValue) values in
  map (λ url,
         let value := member_or_null (param_read url param) in
         let isDifferent := strict_ne value firstValue && hasDiff in
         (value, isDifferent))
      parsedUrls.

(** [QueryParamsView]: the parameter names and their rows; [None] is the
    "No query parameters found in any URL" return. *)
Definition QueryParamsView (parsedUrls : list ParsedURL)
    : option (gset string * (string → list (nullable * bool))) :=
  let allSearchParams := allSearchParams parsedUrls in
  if decide (size allSearchParams = 0) then None
  else Some (allSearchParams, queryParamRow parsedUrls).
End DiffChecker.

(** ** A reference platform *)

(** Modelled from the spec: the repository calls the platform's [URL]
    constructor and has no URL grammar of its own (spec sections 3, 4.1 and
    9 delegate to "a standards-compliant parser").  [Platform.new_URL] is
    that constructor for the plain fragment of the WHATWG URL syntax

      scheme "://" [ user [ ":" password ] "@" ] host [ ":" port ]
             [ path ] [ "?" query ] [ "#" fragment ]

    with scheme one of http, https, ws, wss, ftp (any letter case), user
    and password of unreserved characters, host of dot-separated
    alphanumeric labels that each start with a letter, port a decimal
    number up to 65535 without leading zero, and path, query and fragment
    of characters that the standard copies unchanged (no percent sign, no
    dot segment).  On that fragment the fields are those of the standard:
    scheme and host lower-cased, default port dropped, empty path replaced
    by "/", [search] and [hash] empty when the query or fragment is empty or
    missing, [searchParams] by the form-urlencoded parser.  The model
    rejects every other input with a [TypeError] of message "Invalid URL";
    the standard does so for strings without a scheme, such as "bad", and
    gives other inputs outside the fragment a meaning that is not
    modelled.  The model serves to run the code at concrete inputs; a
    statement about every input of the platform takes the constructor as a
    parameter instead. *)
Module Platform.

Definition code (c : ascii) : nat := nat_of_ascii c.

Definition is_upper (c : ascii) : bool := Nat.leb 65 (code c) && Nat.leb (code c) 90.
Definition is_lower (c : ascii) : bool := Nat.leb 97 (code c) && Nat.leb (code c) 122.
Definition is_alpha (c : ascii) : bool := is_upper c || is_lower c.
Definition is_digit (c : ascii) : bool := Nat.leb 48 (code c) && Nat.leb (code c) 57.
Definition one_of (s : string) (c : ascii) : bool :=
  existsb (Ascii.eqb c) (list_ascii_of_string s).

Definition to_lower (c : ascii) : ascii :=
  if is_upper c then ascii_of_nat (code c + 32) else c.

Definition unreserved (c : ascii) : bool :=
  is_alpha c || is_digit c || one_of "-._~" c.
Definition path_char (c : ascii) : bool := unreserved c || one_of "/:@=&+" c.
Definition query_char (c : ascii) : bool := path_char c || one_of "?" c.
Definition fragment_char (c : ascii) : bool := query_char c || one_of "#" c.

(** The longest prefix without a character satisfying [p], and the rest. *)
Fixpoint break (p : ascii → bool) (l : list ascii) : list ascii * list ascii :=
  match l with
  | [] => ([], [])
  | c :: t => if p c then ([], l) else let '(a, b) := break p t in (c :: a, b)
  end.

(** The pieces of a list between occurrences of [sep]. *)
Fixpoint split_on (sep : ascii) (l : list ascii) : list (list ascii) :=
  match l with
  | [] => [[]]
  | c :: t =>
      if Ascii.eqb c sep then [] :: split_on sep t
      else match split_on sep t with
           | h :: r => (c :: h) :: r
           | [] => [[c]]
           end
  end.

(** The components of a URL record. *)
Record parts : Type := mkParts {
  p_scheme : list ascii;
  p_username : list ascii;
  p_password : list ascii;
  p_host : list ascii;
  p_port : list ascii;
  p_path : list ascii;
  p_query : option (list ascii);
  p_fragment : option (list ascii)
}.

#[global] Instance parts_eq_dec : EqDecision parts.
Proof. solve_decision. Defined.

Definition chars (s : string) : list ascii := list_ascii_of_string s.
Definition text (l : list ascii) : string := string_of_list_ascii l.

Definition default_port (scheme : list ascii) : list ascii :=
  if decide (scheme = chars "http") then chars "80"
  else if decide (scheme = chars "https") then chars "443"
  else if decide (scheme = chars "ws") then chars "80"
  else if decide (scheme = chars "wss") then chars "443"
  else if decide (scheme = chars "ftp") then chars "21"
  else [].

Definition special (scheme : list ascii) : bool :=
  bool_decide (scheme ∈ [chars "http"; chars "https"; chars "ws"; chars "wss"; chars "ftp"]).

(** Cutting the input at its delimiters. *)
Definition split_userinfo (authority : list ascii) : list ascii * list ascii :=
  let '(before, after) := break (Ascii.eqb "@") authority in
  match after with
  | _ :: hostport => (before, hostport)
  | [] => ([], authority)
  end.

Definition after_colon (l : list ascii) : list ascii * list ascii :=
  let '(before, after) := break (Ascii.eqb ":") l in
  (before, tail after).

Definition split (input : list ascii) : option parts :=
  let '(scheme, r) := break (Ascii.eqb ":") input in
  match r with
  | ":"%char :: "/"%char :: "/"%char :: r0 =>
      let '(authority, r1) := break (one_of "/?#") r0 in
      let '(path, r2) := break (one_of "?#") r1 in
      let '(query, r3) :=
        match r2 with
        | "?"%char :: q => let '(q, r3) := break (Ascii.eqb "#") q in (Some q, r3)
        | _ => (None, r2)
        end in
      let fragment := match r3 with "#"%char :: f => Some f | _ => None end in
      let '(userinfo, hostport) := split_userinfo authority in
      let '(user, pass) := after_colon userinfo in
      let '(host, port) := after_colon hostport in
      Some {| p_scheme := scheme; p_username := user; p_password := pass;
              p_host := host; p_port := port; p_path := path;
              p_query := query; p_fragment := fragment |}
  | _ => None
  end.

(** The normalisations of the standard that apply to the fragment. *)
Definition normalise (p : parts) : parts :=
  let scheme := map to_lower (p_scheme p) in
  {| p_scheme := scheme;
     p_username := p_username p;
     p_password := p_password p;
     p_host := map to_lower (p_host p);
     p_port := if decide (p_port p = default_port scheme) then [] else p_port p;
     p_path := if decide (p_path p = []) then ["/"%char] else p_path p;
     p_query := p_query p;
     p_fragment := p_fragment p |}.

Definition host_char (c : ascii) : bool :=
  is_alpha c || is_digit c || Ascii.eqb c ".".

(** Every label starts with a letter and continues with letters and digits. *)
Fixpoint labels_ok (start : bool) (h : list ascii) : bool :=
  match h with
  | [] => negb start
  | c :: t =>
      if start then is_alpha c && labels_ok false t
      else if Ascii.eqb c "." then labels_ok true t
      else (is_alpha c || is_digit c) && labels_ok false t
  end.

Definition number (digits : list ascii) : N :=
  foldl (λ n c, 10 * n + (N_of_ascii c - 48))%N 0%N digits.

Definition port_ok (port : list ascii) : bool :=
  forallb is_digit port
  && match port with
     | "0"%char :: _ :: _ => false
     | _ => true
     end
  && Nat.leb (length port) 5
  && N.leb (number port) 65535.

(** No "/." in the path, hence no dot segment. *)
Fixpoint no_dot_segment (path : list ascii) : bool :=
  match path with
  | "/"%char :: (("."%char :: _) as t) => false
  | _ :: t => no_dot_segment t
  | [] => true
  end.

Definition valid (p : parts) : bool :=
  special (p_scheme p)
  && forallb unreserved (p_username p)
  && forallb unreserved (p_password p)
  && labels_ok true (p_host p)
  && port_ok (p_port p)
  && bool_decide (p_port p ≠ default_port (p_scheme p))
  && match p_path p with "/"%char :: _ => true | _ => false end
  && forallb path_char (p_path p)
  && no_dot_segment (p_path p)
  && forallb query_char (default [] (p_query p))
  && forallb fragment_char (default [] (p_fragment p)).


Definition basic_parse (input : list ascii) : option parts :=
  match split input with
  | Some raw => let p := normalise raw in if valid p then Some p else None
  | None => None
  end.

(** The URL serializer. *)
Definition with_prefix (c : ascii) (l : list ascii) : list ascii :=
  match l with [] => [] | _ => c :: l end.

Definition credentials (p : parts) : list ascii :=
  match p_username p ++ p_password p with
  | [] => []
  | _ :: _ => p_username p ++ with_prefix ":" (p_password p) ++ ["@"%char]
  end.

Definition serialize (p : parts) : list ascii :=
  p_scheme p ++ chars "://" ++ credentials p ++ p_host p
    ++ with_prefix ":" (p_port p) ++ p_path p
    ++ match p_query p with Some q => "?"%char :: q | None => [] end
    ++ match p_fragment p with Some f => "#"%char :: f | None => [] end.

(** The application/x-www-form-urlencoded parser, without percent
    sequences. *)
Definition plus_to_space (c : ascii) : ascii :=
  if Ascii.eqb c "+" then " "%char else c.

Definition parse_pair (sequence : list ascii) : string * string :=
  let '(name, rest) := break (Ascii.eqb "=") sequence in
  (text (map plus_to_space name), text (map plus_to_space (tail rest))).

Definition urlencoded_parse (query : list ascii) : list (string * string) :=
  map parse_pair
      (filter (λ sequence, sequence ≠ []) (split_on "&" query)).

(** The getters of the URL object for a URL record. *)
Definition to_URL (p : parts) : URL :=
  {| URL_href := text (serialize p);
     URL_protocol := text (p_scheme p ++ [":"%char]);
     URL_username := text (p_username p);
     URL_password := text (p_password p);
     URL_host := text (p_host p ++ with_prefix ":" (p_port p));
     URL_hostname := text (p_host p);
     URL_port := text (p_port p);
     URL_pathname := text (p_path p);
     URL_search := text (with_prefix "?" (default [] (p_query p)));
     URL_searchParams := urlencoded_parse (default [] (p_query p));
     URL_hash := text (with_prefix "#" (default [] (p_fragment p))) |}.

Definition new_URL (input : string) : completion URL :=
  match basic_parse (chars input) with
  | Some p => Normal (to_URL p)
  | None => Throw (ErrorObject "Invalid URL")
  end.

End Platform.

(** ** Vocabulary of the specification *)

(** The two states of a [ParsedURL] (specification, section 3).  A success
    record has every field of the data model; [auth], which only the
    diffchecker revision fills in, is not one of them. *)
Definition success_record (p : ParsedURL) : Prop :=
  is_Some (href p) ∧ is_Some (protocol p) ∧ is_Some (username p)
  ∧ is_Some (password p) ∧ is_Some (host p) ∧ is_Some (hostname p)
  ∧ is_Some (port p) ∧ is_Some (pathname p) ∧ is_Some (search p)
  ∧ is_Some (searchParams p) ∧ is_Some (hash p) ∧ error p = None.

Definition failure_record (p : ParsedURL) : Prop :=
  is_Some (error p) ∧ href p = None ∧ auth p = None ∧ protocol p = None
  ∧ username p = None ∧ password p = None ∧ host p = None
  ∧ hostname p = None ∧ port p = None ∧ pathname p = None
  ∧ search p = None ∧ searchParams p = None ∧ hash p = None.

#[global] Instance success_record_dec p : Decision (success_record p).
Proof. unfold success_record. apply _. Defined.
#[global] Instance failure_record_dec p : Decision (failure_record p).
Proof. unfold failure_record. apply _. Defined.


(** "Last occurrence wins": the value of the last pair with the given key
    in an ordered key/value list. *)
Fixpoint last_occurrence (key : string) (pairs : list (string * string))
    : option string :=
  match pairs with
  | [] => None
  | (k, v) :: rest =>
      match last_occurrence key rest with
      | Some later => Some later
      | None => if decide (k = key) then Some v else None
      end
  end.


(** The tracked keys whose value is a non-empty string in the entry parsed
    from "https://h/path". *)
Definition populated_keys : list ComponentKey :=
  [key_protocol; key_hostname; key_pathname].


(** * Properties *)

(** ** Reading a reduced index map *)

Section Reduce.
Context {A : Type} (g : A → bool).

Lemma reduce_from_lookup (l : list A) (k : nat) (acc : gmap nat bool) (j : nat) :
  reduce_from (λ (map : gmap nat bool) val i, <[i := g val]> map) k l acc !! j =
    if decide (k ≤ j < k + length l) then g <$> l !! (j - k) else acc !! j.
Proof.
  revert k acc. induction l as [|x t IH]; intros k acc; simpl.
  - case_decide; [lia | done].
  - rewrite IH. destruct (decide (j = k)) as [->|Hne].
    + rewrite decide_False by lia. rewrite decide_True by lia.
      rewrite lookup_insert_eq. by rewrite Nat.sub_diag.
    + rewrite lookup_insert_ne by done.
      destruct (decide (S k ≤ j < S k + length t)).
      * rewrite decide_True by lia.
        replace (j - k) with (S (j - S k)) by lia. done.
      * rewrite decide_False by lia. done.
Qed.

Lemma reduce_lookup (l : list A) (j : nat) :
  reduce (λ (map : gmap nat bool) val i, <[i := g val]> map) l ∅ !! j
    = g <$> l !! j.
Proof.
  unfold reduce. rewrite reduce_from_lookup, Nat.sub_0_r. simpl.
  case_decide as H; [done |].
  rewrite lookup_empty. rewrite lookup_ge_None_2 by lia. done.
Qed.
End Reduce.

Lemma getDiffMap_lookup (parsedUrls : list ParsedURL) (key : ComponentKey) (i : nat) :
  URLParser.getDiffMap parsedUrls key !! i =
    (λ url, strict_ne (or_default (get url key) "-")
              ((λ base, or_default (get base key) "-") <$> parsedUrls !! 0))
      <$> parsedUrls !! i.
Proof.
  unfold URLParser.getDiffMap.
  rewrite (reduce_lookup (λ val, strict_ne val _)).
  rewrite !list_lookup_fmap. by destruct (parsedUrls !! i).
Qed.

Lemma getComponentDiffs_lookup (parsedUrls : list ParsedURL) (key : ComponentKey) (i : nat) :
  DiffChecker.getComponentDiffs parsedUrls key !! i =
    (λ url, strict_ne (defined_or_empty (get url key))
              ((λ base, defined_or_empty (get base key)) <$> parsedUrls !! 0))
      <$> parsedUrls !! i.
Proof.
  unfold DiffChecker.getComponentDiffs. case_decide as Hlen.
  - destruct parsedUrls; [|done]. by rewrite lookup_empty.
  - rewrite (reduce_lookup (λ val, strict_ne val _)).
    rewrite !list_lookup_fmap. by destruct (parsedUrls !! i).
Qed.

(** ** The reference platform on the inputs of the specification *)

Example new_URL_bad :
  Platform.new_URL "bad" = Throw (ErrorObject "Invalid URL").
Proof. reflexivity. Qed.

Example new_URL_missing_scheme :
  Platform.new_URL "example.com/path" = Throw (ErrorObject "Invalid URL")
  ∧ Platform.new_URL "not a url" = Throw (ErrorObject "Invalid URL").
Proof. split; reflexivity. Qed.

Example new_URL_path :
  Platform.new_URL "https://h/path"
  = Normal {| URL_href := "https://h/path"; URL_protocol := "https:";
              URL_username := ""; URL_password := ""; URL_host := "h";
              URL_hostname := "h"; URL_port := ""; URL_pathname := "/path";
              URL_search := ""; URL_searchParams := []; URL_hash := "" |}.
Proof. reflexivity. Qed.

Example new_URL_repeated_key :
  Platform.new_URL "https://h/?a=1&a=2"
  = Normal {| URL_href := "https://h/?a=1&a=2"; URL_protocol := "https:";
              URL_username := ""; URL_password := ""; URL_host := "h";
              URL_hostname := "h"; URL_port := ""; URL_pathname := "/";
              URL_search := "?a=1&a=2";
              URL_searchParams := [("a", "1"); ("a", "2")]; URL_hash := "" |}.
Proof. reflexivity. Qed.

Example new_URL_sample :
  Platform.new_URL "HTTPS://user:pw@Example.com:8080/p/a?x=1&y=2#frag"
  = Normal {| URL_href := "https://user:pw@example.com:8080/p/a?x=1&y=2#frag";
              URL_protocol := "https:"; URL_username := "user";
              URL_password := "pw"; URL_host := "example.com:8080";
              URL_hostname := "example.com"; URL_port := "8080";
              URL_pathname := "/p/a"; URL_search := "?x=1&y=2";
              URL_searchParams := [("x", "1"); ("y", "2")];
              URL_hash := "#frag" |}.
Proof. reflexivity. Qed.

Example new_URL_default_port :
  URL_port <$> (match Platform.new_URL "https://h:443/" with
                | Normal parsed => Some parsed
                | Throw _ => None
                end) = Some "".
Proof. reflexivity. Qed.

(** ** The reference platform re-parses what it serializes *)

Module PlatformFacts.
Import Platform.

(** Facts about character classes are verified on all 256 characters. *)
Ltac by_cases_on_char c :=
  destruct c as [[] [] [] [] [] [] [] []]; vm_compute; try discriminate; try reflexivity.



Lemma forallb_weaken (f g : ascii → bool) (l : list ascii) :
  (∀ c, f c = true → g c = true) → forallb f l = true → forallb g l = true.
Proof.
  intros Hfg. induction l as [|c t IH]; simpl; [done |].
  intros [Hc Ht]%andb_prop. by rewrite (Hfg c Hc), IH.
Qed.

Lemma break_app (f : ascii → bool) (a b : list ascii) :
  forallb (λ c, negb (f c)) a = true →
  match b with [] => True | c :: _ => f c = true end →
  break f (a ++ b) = (a, b).
Proof.
  intros Ha Hb. induction a as [|x a IH]; simpl.
  - destruct b as [|c t]; simpl; [done |]. by rewrite Hb.
  - simpl in Ha. apply andb_prop in Ha as [Hx Ha].
    apply negb_true_iff in Hx. rewrite Hx, (IH Ha). done.
Qed.

Lemma break_all (f : ascii → bool) (a : list ascii) :
  forallb (λ c, negb (f c)) a = true → break f a = (a, []).
Proof.
  intros Ha. rewrite <- (app_nil_r a) at 1. by apply break_app.
Qed.


Lemma labels_ok_chars (start : bool) (h : list ascii) :
  labels_ok start h = true → forallb host_char h = true.
Proof.
  revert start. induction h as [|c t IH]; intros start; simpl; [done |].
  unfold host_char. destruct start.
  - intros [Hc Ht]%andb_prop. rewrite Hc. simpl. eauto.
  - destruct (Ascii.eqb c "."); [rewrite orb_true_r; simpl; eauto |].
    intros [Hc Ht]%andb_prop. rewrite orb_false_r, Hc. simpl. eauto.
Qed.



Lemma host_char_no_delimiter (c : ascii) :
  host_char c = true → negb (one_of ":@/?#" c) = true.
Proof. by_cases_on_char c. Qed.





Lemma no_at (f : ascii → bool) (l : list ascii) :
  (∀ c, f c = true → negb (one_of ":@/?#" c) = true) →
  forallb f l = true →
  forallb (λ c, negb (Ascii.eqb "@" c)) l = true
  ∧ forallb (λ c, negb (Ascii.eqb ":" c)) l = true
  ∧ forallb (λ c, negb (one_of "/?#" c)) l = true.
Proof.
  intros Hf Hl. repeat split; refine (forallb_weaken _ _ _ _ Hl);
    intros c Hc%Hf; revert Hc; by_cases_on_char c.
Qed.

Lemma after_colon_app (a b : list ascii) :
  forallb (λ c, negb (Ascii.eqb ":" c)) a = true →
  after_colon (a ++ with_prefix ":" b) = (a, b).
Proof.
  intros Ha. unfold after_colon, with_prefix. destruct b as [|d b].
  - by rewrite app_nil_r, (break_all _ _ Ha).
  - by rewrite (break_app _ a (":"%char :: d :: b) Ha).
Qed.


Lemma hostport_roundtrip (host port : list ascii) :
  labels_ok true host = true →
  after_colon (host ++ with_prefix ":" port) = (host, port).
Proof.
  intros Hhost%labels_ok_chars.
  destruct (no_at _ _ host_char_no_delimiter Hhost) as (_ & Hcolon & _).
  by apply after_colon_app.
Qed.













End PlatformFacts.

(** ** Defaulting and truthiness *)

Ltac case_truthy :=
  unfold or_null, or_default, defined_or_empty, truthy;
  repeat match goal with
         | v : option string |- _ => destruct v as [?|]
         end; simpl;
  repeat match goal with
         | |- context [String.eqb ?x ""] =>
             destruct (String.eqb_spec x ""); simpl
         end.





(** Away from the literal "-", the two defaulting rules identify the same
    pairs of values. *)
Lemma or_default_eq_empty (v w : option string) :
  v ≠ Some "-" → w ≠ Some "-" →
  or_default v "-" = or_default w "-" ↔ defined_or_empty v = defined_or_empty w.
Proof. intros Hv Hw. case_truthy; intuition congruence. Qed.

Lemma empty_or_absent_defaults (v : option string) :
  v = Some "" ∨ v = None →
  defined_or_empty v = "" ∧ or_default v "-" = "-".
Proof. by intros [-> | ->]. Qed.

(** Replacing an entry by one with the same defaulted value leaves the
    list of compared values unchanged. *)
Lemma values_insert (f : ParsedURL → string) (parsedUrls : list ParsedURL)
    (i : nat) (url other : ParsedURL) :
  parsedUrls !! i = Some url → f other = f url →
  map f (<[i := other]> parsedUrls) = map f parsedUrls.
Proof.
  intros Hi Hf. change (f <$> <[i := other]> parsedUrls = f <$> parsedUrls).
  rewrite list_fmap_insert, Hf. apply list_insert_id.
  by rewrite list_lookup_fmap, Hi.
Qed.

(** Settles a flag [bool_decide (Some a ≠ Some b)] from the context. *)
Ltac decide_flag :=
  simpl;
  first [ reflexivity
        | apply bool_decide_eq_true_2; congruence
        | apply bool_decide_eq_false_2;
          let H := fresh in intros H; apply H; congruence ].

(** Case analysis on membership in an explicit list of keys. *)
Ltac each_key H :=
  repeat (apply elem_of_cons in H as [-> | H]); [.. | by apply elem_of_nil in H].

(** ** The fold of [parseUrl] *)

Lemma foldl_assign_lookup (pairs : list (string * string))
    (acc : gmap string string) (key : string) :
  key ≠ "__proto__" →
  foldl (λ searchParams kv, assign kv.1 kv.2 searchParams) acc pairs !! key
    = match last_occurrence key pairs with
      | Some value => Some value
      | None => acc !! key
      end.
Proof.
  intros Hkey. revert acc.
  induction pairs as [|[k v] rest IH]; intros acc; simpl; [done |].
  rewrite IH. destruct (last_occurrence key rest); [done |].
  unfold assign. simpl. destruct (decide (k = "__proto__")) as [-> | Hproto].
  - by rewrite decide_False by done.
  - case_decide as Hk.
    + subst. by rewrite lookup_insert_eq.
    + by rewrite lookup_insert_ne.
Qed.

Lemma foldl_assign_proto (pairs : list (string * string))
    (acc : gmap string string) :
  foldl (λ searchParams kv, assign kv.1 kv.2 searchParams) acc pairs !! "__proto__"
    = acc !! "__proto__".
Proof.
  revert acc. induction pairs as [|[k v] rest IH]; intros acc; simpl; [done |].
  rewrite IH. unfold assign. simpl. case_decide as Hk; [done |].
  by rewrite lookup_insert_ne.
Qed.

Lemma collect_searchParams_lookup (parsed : URL) (key : string) :
  key ≠ "__proto__" →
  collect_searchParams parsed !! key = last_occurrence key (URL_searchParams parsed).
Proof.
  intros Hkey. unfold collect_searchParams.
  rewrite foldl_assign_lookup, lookup_empty by done.
  by destruct (last_occurrence _ _).
Qed.

Lemma collect_searchParams_proto (parsed : URL) :
  collect_searchParams parsed !! "__proto__" = None.
Proof. unfold collect_searchParams. by rewrite foldl_assign_proto, lookup_empty. Qed.

(** ** Reading a parameter *)





(** A name held as an own property is read as that property, whatever the
    prototype defines. *)
Lemma param_read_held (url : ParsedURL) (param value : string) :
  param_lookup url param = Some value → param_read url param = OwnString value.
Proof.
  unfold param_read, param_lookup, read.
  destruct (searchParams url) as [object|]; simpl; [| done].
  by intros ->.
Qed.


(** The reference platform's only error message. *)
Lemma new_URL_message (inputUrl message : string) :
  Platform.new_URL inputUrl = Throw (ErrorObject message) → message ≠ "".
Proof.
  unfold Platform.new_URL. destruct (Platform.basic_parse _); [done |].
  by intros [= <-].
Qed.


(** The side-by-side view of URLParser.tsx is a different computation: an
    entry with an error has no parts at all, and a missing part differs
    even from an empty one. *)
Lemma side_by_side_flags_every_part :
  ∃ parsedUrls,
    URLParser.parseAll Platform.new_URL ["bad"; "https://h/path"] = Normal parsedUrls
    ∧ URLParser.SideBySideDiff parsedUrls
        = Some (map (λ part, (part, true)) URLParser.parts).
Proof. eexists. split; [by vm_compute |]. by vm_compute. Qed.

(** * The claims *)

(** ** C1: a failed baseline *)

(** C1, refuted as stated: for the comparison set parsed from "bad" and
    "https://h/path", neither diff function flags entry 1 for every tracked
    key; the port, for one, is the empty string in entry 1 and defaults to
    the same value as the failed baseline's missing field. *)
Lemma failed_baseline_not_every_key :
  ∃ parsedUrls parsedUrls',
    DiffChecker.parseAll Platform.new_URL ["bad"; "https://h/path"] = Normal parsedUrls
    ∧ URLParser.parseAll Platform.new_URL ["bad"; "https://h/path"] = Normal parsedUrls'
    ∧ ¬ (∀ key, key ∈ DiffChecker.componentsToCompare →
           DiffChecker.getComponentDiffs parsedUrls key !! 1 = Some true)
    ∧ ¬ (∀ key, key ∈ DiffChecker.componentsToCompare →
           URLParser.getDiffMap parsedUrls' key !! 1 = Some true).
Proof.
  do 2 eexists. split; [by vm_compute |]. split; [by vm_compute |].
  split; intros Hall;
    specialize (Hall key_port ltac:(unfold DiffChecker.componentsToCompare; set_solver));
    vm_compute in Hall; discriminate.
Qed.

(** C1, amended: for the comparison set parsed from "bad" and
    "https://h/path", entry 1 is flagged for exactly the tracked keys whose
    value in entry 1 is a non-empty string (protocol, hostname, pathname)
    and is not flagged for auth, port, search and hash, whose empty values
    equal the failed baseline's default.  This holds for
    [getComponentDiffs] on its seven keys and for [getDiffMap] on those and
    on the keys of its own table. *)
Theorem failed_baseline_flags_populated_keys :
  ∃ parsedUrls parsedUrls',
    DiffChecker.parseAll Platform.new_URL ["bad"; "https://h/path"] = Normal parsedUrls
    ∧ URLParser.parseAll Platform.new_URL ["bad"; "https://h/path"] = Normal parsedUrls'
    ∧ (∀ key, key ∈ DiffChecker.componentsToCompare →
         DiffChecker.getComponentDiffs parsedUrls key !! 1
           = Some (bool_decide (key ∈ populated_keys)))
    ∧ (∀ key, key ∈ DiffChecker.componentsToCompare ++ URLParser.colorMap_keys →
         URLParser.getDiffMap parsedUrls' key !! 1
           = Some (bool_decide (key ∈ populated_keys))).
Proof.
  do 2 eexists. split; [by vm_compute |]. split; [by vm_compute |].
  split; intros key Hkey.
  - unfold DiffChecker.componentsToCompare in Hkey. each_key Hkey; by vm_compute.
  - unfold DiffChecker.componentsToCompare, URLParser.colorMap_keys in Hkey.
    simpl app in Hkey. each_key Hkey; by vm_compute.
Qed.

(** ** C2: the value compared for a query parameter *)


(** A name that [Object.prototype] defines and that an entry does not hold
    itself is read from the prototype: the value is the inherited member,
    which is truthy, so neither default applies. *)
Lemma inherited_name_reads_prototype (url : ParsedURL) (object : gmap string string)
    (param : string) :
  searchParams url = Some object →
  object !! param = None →
  param ∈ Object_prototype_names →
  member_or_null (param_read url param) = Inherited param
  ∧ member_or_dash (param_read url param) = Inherited param.
Proof.
  intros Hobject Hparam Hname. unfold param_read, read.
  by rewrite Hobject, Hparam, bool_decide_eq_true_2.
Qed.

(** The row of the name "toString" for the set parsed from "https://h/"
    and "https://h/?toString=": entry 0 does not hold the name and reads
    the inherited function, entry 1 holds it with the empty value. *)
Example inherited_name_row :
  ∃ parsedUrls,
    DiffChecker.parseAll Platform.new_URL ["https://h/"; "https://h/?toString="]
      = Normal parsedUrls
    ∧ DiffChecker.allSearchParams parsedUrls = {["toString"]}
    ∧ DiffChecker.paramRow parsedUrls "toString"
        = [(Inherited "toString", false); (Null, true)]
    ∧ DiffChecker.queryParamRow parsedUrls "toString"
        = [(Inherited "toString", false); (Null, true)].
Proof.
  eexists. split; [by vm_compute |]. split; [by vm_compute |].
  split; by vm_compute.
Qed.



(** ** C3: the union of parameter names *)

(** C3, refuted as stated: for the set parsed from "https://h/?x=1" and
    "https://h/?y=2", the diffchecker view does not flag entry 0 for the
    name "y": entry 0 is the baseline of every row. *)
Lemma baseline_not_flagged_for_absent_param :
  ∃ parsedUrls v,
    DiffChecker.parseAll Platform.new_URL ["https://h/?x=1"; "https://h/?y=2"]
      = Normal parsedUrls
    ∧ DiffChecker.DiffCheckerView parsedUrls = Some v
    ∧ "y" ∈ DiffChecker.view_allSearchParams v
    ∧ ¬ ((DiffChecker.view_params v "y").*2 !! 0 = Some true).
Proof.
  do 2 eexists. split; [by vm_compute |]. split; [reflexivity |].
  split; [by vm_compute |]. by vm_compute.
Qed.

(** C3, amended: for the set parsed from "https://h/?x=1" and
    "https://h/?y=2", the tracked parameter names are the union {x, y} of
    the names present in any entry, and in the diffchecker view entry 1 is
    flagged for both names (absent against "1" for x, "2" against absent
    for y) while entry 0, the baseline, is flagged for neither.  (The table
    of URLParser.tsx has the same names and flags a row as a whole: there
    both entries are flagged for both names.) *)
Theorem union_of_parameter_names :
  ∃ parsedUrls parsedUrls' v,
    DiffChecker.parseAll Platform.new_URL ["https://h/?x=1"; "https://h/?y=2"]
      = Normal parsedUrls
    ∧ URLParser.parseAll Platform.new_URL ["https://h/?x=1"; "https://h/?y=2"]
      = Normal parsedUrls'
    ∧ DiffChecker.DiffCheckerView parsedUrls = Some v
    ∧ DiffChecker.view_allSearchParams v = {["x"; "y"]}
    ∧ DiffChecker.view_params v "x" = [(Str "1", false); (Null, true)]
    ∧ DiffChecker.view_params v "y" = [(Null, false); (Str "2", true)]
    ∧ URLParser.paramNames parsedUrls' = {["x"; "y"]}
    ∧ URLParser.paramRow parsedUrls' "x" = [(Str "1", true); (Str "-", true)]
    ∧ URLParser.paramRow parsedUrls' "y" = [(Str "-", true); (Str "2", true)].
Proof.
  do 3 eexists. split; [by vm_compute |]. split; [by vm_compute |].
  split; [reflexivity |]. repeat split; by vm_compute.
Qed.

(** ** C4: repeated query keys *)

(** On every platform and for every input that it accepts, the
    [searchParams] of the record that [parseUrl] returns maps each name
    other than "__proto__" to the value of the last pair with that name in
    the sequence the platform iterates, the pairs being folded in order
    with a repeated key overwriting the earlier value, and holds no
    property named "__proto__" whatever the pairs are. *)
Lemma searchParams_of_parsed (new_URL : string → completion URL)
    (inputUrl : string) (parsed : URL) :
  new_URL inputUrl = Normal parsed →
  ∃ p p',
    URLParser.parseUrl new_URL inputUrl = Normal p
    ∧ DiffChecker.parseUrl new_URL inputUrl = Normal p'
    ∧ (∀ key, key ≠ "__proto__" →
         param_lookup p key = last_occurrence key (URL_searchParams parsed)
         ∧ param_lookup p' key = last_occurrence key (URL_searchParams parsed))
    ∧ param_lookup p "__proto__" = None
    ∧ param_lookup p' "__proto__" = None.
Proof.
  intros Hparsed.
  unfold URLParser.parseUrl, DiffChecker.parseUrl. rewrite Hparsed. simpl.
  do 2 eexists. split; [done |]. split; [done |].
  unfold param_lookup. simpl. split.
  - intros key Hkey. by rewrite collect_searchParams_lookup.
  - by rewrite collect_searchParams_proto.
Qed.

(** The record parsed from "https://h/?a=1&a=2" has "2" under "a". *)
Example repeated_key_a :
  ∃ p p',
    URLParser.parseUrl Platform.new_URL "https://h/?a=1&a=2" = Normal p
    ∧ DiffChecker.parseUrl Platform.new_URL "https://h/?a=1&a=2" = Normal p'
    ∧ param_lookup p "a" = Some "2" ∧ param_lookup p' "a" = Some "2"
    ∧ param_read p "a" = OwnString "2" ∧ param_read p' "a" = OwnString "2".
Proof. do 2 eexists. repeat split; by vm_compute. Qed.

(** C4, at the input where the code departs from it: the query string of
    "https://h/?__proto__=1&__proto__=2" repeats the key "__proto__", whose
    last value is "2", yet the [searchParams] of the record that [parseUrl]
    returns is empty: the assignment of a string to "__proto__" stores
    nothing, and reading the name back yields the inherited member rather
    than "2".  Both versions of [parseUrl] behave so. *)
Theorem proto_key_is_not_stored :
  ∃ parsed p p',
    Platform.new_URL "https://h/?__proto__=1&__proto__=2" = Normal parsed
    ∧ URL_searchParams parsed = [("__proto__", "1"); ("__proto__", "2")]
    ∧ last_occurrence "__proto__" (URL_searchParams parsed) = Some "2"
    ∧ URLParser.parseUrl Platform.new_URL "https://h/?__proto__=1&__proto__=2" = Normal p
    ∧ DiffChecker.parseUrl Platform.new_URL "https://h/?__proto__=1&__proto__=2" = Normal p'
    ∧ searchParams p = Some ∅ ∧ searchParams p' = Some ∅
    ∧ param_lookup p "__proto__" = None ∧ param_lookup p' "__proto__" = None
    ∧ param_read p "__proto__" = FromPrototype "__proto__"
    ∧ param_read p' "__proto__" = FromPrototype "__proto__".
Proof.
  do 3 eexists. split; [by vm_compute |]. split; [reflexivity |].
  split; [by vm_compute |]. split; [by vm_compute |]. split; [by vm_compute |].
  repeat split; by vm_compute.
Qed.

(** ** C5: the baseline is never flagged *)

(** C5: for every non-empty comparison set and every component key, both
    diff functions map index 0 to [false]. *)
Theorem baseline_never_flagged (parsedUrls : list ParsedURL) (key : ComponentKey) :
  parsedUrls ≠ [] →
  DiffChecker.getComponentDiffs parsedUrls key !! 0 = Some false
  ∧ URLParser.getDiffMap parsedUrls key !! 0 = Some false.
Proof.
  intros Hne. destruct parsedUrls as [|base rest]; [done |].
  rewrite getComponentDiffs_lookup, getDiffMap_lookup. simpl.
  unfold strict_ne. split; f_equal; apply bool_decide_eq_false; auto.
Qed.

(** C5 at a set whose only entry failed to parse. *)
Lemma baseline_never_flagged_witness :
  DiffChecker.getComponentDiffs [error_record "Invalid URL"] key_port !! 0 = Some false
  ∧ URLParser.getDiffMap [error_record "Invalid URL"] key_port !! 0 = Some false.
Proof. apply baseline_never_flagged. discriminate. Defined.

(** ** C6: no exception leaves [parseUrl] *)



(** ** C7: success or failure, never both *)

(** C7: on every platform and every input, the record that [parseUrl]
    returns is a success record (every field of the data model present,
    [error] absent) or a failure record (only [error] present), and not
    both. *)
Theorem parseUrl_success_xor_failure (new_URL : string → completion URL)
    (inputUrl : string) :
  ∃ p p',
    URLParser.parseUrl new_URL inputUrl = Normal p
    ∧ DiffChecker.parseUrl new_URL inputUrl = Normal p'
    ∧ (success_record p ∨ failure_record p)
    ∧ ¬ (success_record p ∧ failure_record p)
    ∧ (success_record p' ∨ failure_record p')
    ∧ ¬ (success_record p' ∧ failure_record p').
Proof.
  unfold URLParser.parseUrl, DiffChecker.parseUrl.
  destruct (new_URL inputUrl) as [parsed | e]; simpl; do 2 eexists;
    (split; [done |]); (split; [done |]);
    unfold success_record, failure_record; simpl.
  - split; [left; repeat split; eauto |].
    split; [by intros [_ [[? [=]] _]] |].
    split; [left; repeat split; eauto |]. by intros [_ [[? [=]] _]].
  - split; [right; repeat split; eauto |].
    split; [by intros [[[? [=]] _] _] |].
    split; [right; repeat split; eauto |]. by intros [[[? [=]] _] _].
Qed.

(** ** C8: re-parsing [href] *)



(** ** C9: the two structural diffs *)

(** C9, refuted as stated: for the set parsed from "https://h/" and
    "https://-@h/" and the key [username], [getDiffMap] and
    [getComponentDiffs] return different maps: the user name "-" equals the
    "-" that [getDiffMap] substitutes for the empty user name of entry 0,
    but not the empty string that [getComponentDiffs] compares. *)
Lemma diff_implementations_disagree_on_dash :
  ∃ parsedUrls,
    URLParser.parseAll Platform.new_URL ["https://h/"; "https://-@h/"] = Normal parsedUrls
    ∧ URLParser.getDiffMap parsedUrls key_username !! 1 = Some false
    ∧ DiffChecker.getComponentDiffs parsedUrls key_username !! 1 = Some true
    ∧ URLParser.getDiffMap parsedUrls key_username
        ≠ DiffChecker.getComponentDiffs parsedUrls key_username.
Proof.
  eexists. split; [by vm_compute |]. split; [by vm_compute |].
  split; [by vm_compute |].
  intros Heq. apply (f_equal (.!! 1)) in Heq. vm_compute in Heq. discriminate.
Qed.

(** C9, amended: for every list of entries and every component key such
    that no entry's value for the key is the string "-", [getDiffMap]
    (which defaults absent and empty values to "-") and [getComponentDiffs]
    (which defaults absent values to the empty string) return identical
    maps. *)
Theorem diff_implementations_agree_without_dash
    (parsedUrls : list ParsedURL) (key : ComponentKey) :
  (∀ url, url ∈ parsedUrls → get url key ≠ Some "-") →
  URLParser.getDiffMap parsedUrls key = DiffChecker.getComponentDiffs parsedUrls key.
Proof.
  intros Hdash. apply map_eq. intros i.
  rewrite getDiffMap_lookup, getComponentDiffs_lookup.
  destruct (parsedUrls !! i) as [url|] eqn:Hi; [simpl | done].
  f_equal. unfold strict_ne.
  destruct parsedUrls as [|base rest]; [done |]. simpl.
  apply bool_decide_ext.
  assert (Hu : get url key ≠ Some "-")
    by (apply Hdash; eapply list_elem_of_lookup_2; eauto).
  assert (Hb : get base key ≠ Some "-") by (apply Hdash; left).
  pose proof (or_default_eq_empty _ _ Hu Hb) as Heq.
  split; intros Hne Hs; apply Hne; f_equal; injection Hs as Hs; by apply Heq.
Qed.

(** C9, the amended statement at the set parsed from "bad" and
    "https://h:8080/path" for the key [port]. *)
Lemma diff_implementations_agree_without_dash_witness :
  ∃ parsedUrls,
    URLParser.parseAll Platform.new_URL ["bad"; "https://h:8080/path"] = Normal parsedUrls
    ∧ URLParser.getDiffMap parsedUrls key_port
        = DiffChecker.getComponentDiffs parsedUrls key_port.
Proof.
  eexists. split; [by vm_compute |].
  apply diff_implementations_agree_without_dash.
  intros url Hurl. each_key Hurl; discriminate.
Defined.

(** ** C10: an empty component and a failed entry *)

(** C10, refuted as stated for [getDiffMap]: in the set parsed from
    "https://-@h/" and "https://h/", entry 1 has the empty user name and the
    baseline's defaulted user name is the non-empty component value "-",
    yet entry 1 is not flagged. *)
Lemma dash_baseline_hides_empty_component :
  ∃ parsedUrls base url,
    URLParser.parseAll Platform.new_URL ["https://-@h/"; "https://h/"] = Normal parsedUrls
    ∧ parsedUrls = [base; url]
    ∧ get url key_username = Some ""
    ∧ get base key_username = Some "-"
    ∧ or_default (get base key_username) "-" = "-"
    ∧ ¬ (URLParser.getDiffMap parsedUrls key_username !! 1 = Some true).
Proof.
  do 3 eexists. split; [by vm_compute |]. split; [done |].
  repeat split; by vm_compute.
Qed.

(** C10, amended: in both structural diffs, an entry whose value for the
    key is the empty string and an entry whose field is absent collapse to
    the same default, so exchanging one for the other changes neither map;
    in [getComponentDiffs] such an entry is flagged iff the baseline's value
    is a non-empty string, and in [getDiffMap] iff the baseline's value is a
    non-empty string other than "-". *)
Theorem empty_component_same_as_failed (parsedUrls : list ParsedURL)
    (key : ComponentKey) (i : nat) (url base : ParsedURL) :
  parsedUrls !! i = Some url →
  parsedUrls !! 0 = Some base →
  get url key = Some "" ∨ get url key = None →
  (∀ other, get other key = Some "" ∨ get other key = None →
     DiffChecker.getComponentDiffs (<[i := other]> parsedUrls) key
       = DiffChecker.getComponentDiffs parsedUrls key
     ∧ URLParser.getDiffMap (<[i := other]> parsedUrls) key
       = URLParser.getDiffMap parsedUrls key)
  ∧ DiffChecker.getComponentDiffs parsedUrls key !! i
      = Some (truthy (get base key))
  ∧ URLParser.getDiffMap parsedUrls key !! i
      = Some (truthy (get base key) && bool_decide (get base key ≠ Some "-")).
Proof.
  intros Hi Hbase Hurl.
  destruct (empty_or_absent_defaults _ Hurl) as [Hempty Hdash].
  split; [| split].
  - intros other Hother.
    destruct (empty_or_absent_defaults _ Hother) as [Hempty' Hdash'].
    unfold DiffChecker.getComponentDiffs, URLParser.getDiffMap.
    rewrite length_insert.
    rewrite (values_insert (λ u, defined_or_empty (get u key)) _ _ url) by congruence.
    rewrite (values_insert (λ u, or_default (get u key) "-") _ _ url) by congruence.
    done.
  - rewrite getComponentDiffs_lookup, Hi, Hbase. simpl fmap. rewrite Hempty.
    f_equal. unfold strict_ne, truthy.
    destruct (get base key) as [v|];
      [destruct (String.eqb_spec v "") as [-> | Hv] |].
    all: decide_flag.
  - rewrite getDiffMap_lookup, Hi, Hbase. simpl fmap. rewrite Hdash.
    f_equal. unfold strict_ne, or_default, truthy.
    destruct (get base key) as [v|];
      [destruct (String.eqb_spec v "") as [-> | Hv];
       [| destruct (decide (v = "-")) as [-> | Hv']] |]; simpl negb; simpl andb.
    + decide_flag.
    + decide_flag.
    + rewrite (bool_decide_eq_true_2 (Some v ≠ Some "-")) by congruence.
      decide_flag.
    + decide_flag.
Qed.

(** C10, the amended statement at entry 1 of the set parsed from
    "https://h:8080/" and "https://h/" for the key [port]. *)
Lemma empty_component_same_as_failed_witness :
  ∃ parsedUrls base url,
    DiffChecker.parseAll Platform.new_URL ["https://h:8080/"; "https://h/"] = Normal parsedUrls
    ∧ parsedUrls = [base; url]
    ∧ (∀ other, get other key_port = Some "" ∨ get other key_port = None →
         DiffChecker.getComponentDiffs (<[1 := other]> parsedUrls) key_port
           = DiffChecker.getComponentDiffs parsedUrls key_port
         ∧ URLParser.getDiffMap (<[1 := other]> parsedUrls) key_port
           = URLParser.getDiffMap parsedUrls key_port)
    ∧ DiffChecker.getComponentDiffs parsedUrls key_port !! 1
        = Some (truthy (get base key_port))
    ∧ URLParser.getDiffMap parsedUrls key_port !! 1
        = Some (truthy (get base key_port)
                && bool_decide (get base key_port ≠ Some "-")).
Proof.
  do 3 eexists. split; [by vm_compute |]. split; [done |].
  eapply (empty_component_same_as_failed _ key_port 1);
    [reflexivity | reflexivity | left; reflexivity].
Defined.

(** * Further properties of the code *)

(** ** Helpers *)

(** [Array.prototype.some] holds iff some element satisfies the test. *)
Lemma some_spec {A : Type} (p : A → bool) (l : list A) :
  some p l = true ↔ ∃ x, x ∈ l ∧ p x = true.
Proof.
  unfold some. rewrite existsb_exists.
  split; intros (x & Hx & Hp); exists x; split; try done; by apply list_elem_of_In.
Qed.


(** ** The structural diff maps *)

(** X1: both diff functions return a map whose keys are exactly the indices
    of the entries: index [i] has a flag iff [i] is less than the number of
    entries; in particular the map of an empty list is empty. *)
Theorem diff_map_indices (parsedUrls : list ParsedURL) (key : ComponentKey) (i : nat) :
  (is_Some (DiffChecker.getComponentDiffs parsedUrls key !! i) ↔ i < length parsedUrls)
  ∧ (is_Some (URLParser.getDiffMap parsedUrls key !! i) ↔ i < length parsedUrls).
Proof.
  rewrite getComponentDiffs_lookup, getDiffMap_lookup, !fmap_is_Some.
  split; apply lookup_lt_is_Some.
Qed.

(** X2: a diff map has no flagged index iff every entry's defaulted value
    for the key equals the baseline's (the default being the empty string
    in [getComponentDiffs] and "-" in [getDiffMap]). *)
Theorem no_flag_iff_same_values (parsedUrls : list ParsedURL) (key : ComponentKey)
    (base : ParsedURL) :
  parsedUrls !! 0 = Some base →
  ((∀ i, DiffChecker.getComponentDiffs parsedUrls key !! i ≠ Some true)
   ↔ ∀ url, url ∈ parsedUrls →
       defined_or_empty (get url key) = defined_or_empty (get base key))
  ∧ ((∀ i, URLParser.getDiffMap parsedUrls key !! i ≠ Some true)
     ↔ ∀ url, url ∈ parsedUrls →
         or_default (get url key) "-" = or_default (get base key) "-").
Proof.
  intros Hbase. split.
  - split.
    + intros Hflags url [i Hi]%list_elem_of_lookup.
      specialize (Hflags i). rewrite getComponentDiffs_lookup, Hi, Hbase in Hflags.
      simpl in Hflags. unfold strict_ne in Hflags.
      destruct (decide (defined_or_empty (get url key) = defined_or_empty (get base key)))
        as [Heq | Hne]; [done |].
      exfalso. apply Hflags. f_equal. apply bool_decide_eq_true_2. congruence.
    + intros Hsame i. rewrite getComponentDiffs_lookup, Hbase.
      destruct (parsedUrls !! i) as [url|] eqn:Hi; [| done]. simpl.
      intros [= Hflag]. unfold strict_ne in Hflag.
      apply bool_decide_eq_true_1 in Hflag. apply Hflag. f_equal.
      apply Hsame. by eapply list_elem_of_lookup_2.
  - split.
    + intros Hflags url [i Hi]%list_elem_of_lookup.
      specialize (Hflags i). rewrite getDiffMap_lookup, Hi, Hbase in Hflags.
      simpl in Hflags. unfold strict_ne in Hflags.
      destruct (decide (or_default (get url key) "-" = or_default (get base key) "-"))
        as [Heq | Hne]; [done |].
      exfalso. apply Hflags. f_equal. apply bool_decide_eq_true_2. congruence.
    + intros Hsame i. rewrite getDiffMap_lookup, Hbase.
      destruct (parsedUrls !! i) as [url|] eqn:Hi; [| done]. simpl.
      intros [= Hflag]. unfold strict_ne in Hflag.
      apply bool_decide_eq_true_1 in Hflag. apply Hflag. f_equal.
      apply Hsame. by eapply list_elem_of_lookup_2.
Qed.

(** X2 at two failed entries with different messages, for the key [port]. *)
Lemma no_flag_iff_same_values_witness :
  ((∀ i, DiffChecker.getComponentDiffs
           [error_record "Invalid URL"; error_record "Invalid URL: bad"] key_port !! i
         ≠ Some true)
   ↔ ∀ url, url ∈ [error_record "Invalid URL"; error_record "Invalid URL: bad"] →
       defined_or_empty (get url key_port)
       = defined_or_empty (get (error_record "Invalid URL") key_port))
  ∧ ((∀ i, URLParser.getDiffMap
             [error_record "Invalid URL"; error_record "Invalid URL: bad"] key_port !! i
           ≠ Some true)
     ↔ ∀ url, url ∈ [error_record "Invalid URL"; error_record "Invalid URL: bad"] →
         or_default (get url key_port) "-"
         = or_default (get (error_record "Invalid URL") key_port) "-").
Proof. apply no_flag_iff_same_values. reflexivity. Defined.

(** X3: appending entries to a comparison set does not change the flag of
    any earlier index, in either diff function. *)
Theorem earlier_flags_survive_append (parsedUrls more : list ParsedURL)
    (key : ComponentKey) (i : nat) :
  i < length parsedUrls →
  DiffChecker.getComponentDiffs (parsedUrls ++ more) key !! i
    = DiffChecker.getComponentDiffs parsedUrls key !! i
  ∧ URLParser.getDiffMap (parsedUrls ++ more) key !! i
    = URLParser.getDiffMap parsedUrls key !! i.
Proof.
  intros Hi. rewrite !getComponentDiffs_lookup, !getDiffMap_lookup.
  rewrite (lookup_app_l parsedUrls more i Hi).
  rewrite (lookup_app_l parsedUrls more 0) by lia. done.
Qed.

(** X3 at index 1 of two entries extended by a third. *)
Lemma earlier_flags_survive_append_witness :
  DiffChecker.getComponentDiffs
      ([error_record "a"; error_record "b"] ++ [error_record "c"]) key_error !! 1
    = DiffChecker.getComponentDiffs [error_record "a"; error_record "b"] key_error !! 1
  ∧ URLParser.getDiffMap
      ([error_record "a"; error_record "b"] ++ [error_record "c"]) key_error !! 1
    = URLParser.getDiffMap [error_record "a"; error_record "b"] key_error !! 1.
Proof. apply earlier_flags_survive_append. simpl. lia. Defined.

(** [Object.values(diffs).some((isDiff) => isDiff)]. *)
Lemma some_flag_spec (diffs : gmap nat bool) :
  some (λ isDiff : bool, isDiff) (map snd (map_to_list diffs)) = true
  ↔ ∃ i, diffs !! i = Some true.
Proof.
  rewrite some_spec. split.
  - intros (b & Hb & ->).
    change (true ∈ snd <$> map_to_list diffs) in Hb.
    apply list_elem_of_fmap in Hb as ([i b] & Hb & Hin). simpl in Hb. subst b.
    exists i. by apply elem_of_map_to_list.
  - intros [i Hi]. exists true. split; [| done].
    change (true ∈ snd <$> map_to_list diffs).
    apply list_elem_of_fmap. exists (i, true). split; [done |].
    by apply elem_of_map_to_list.
Qed.

Lemma hasDifferences_flag (parsedUrls : list ParsedURL) :
  DiffChecker.hasDifferences parsedUrls = true
  ↔ ∃ key i, key ∈ DiffChecker.componentsToCompare
             ∧ DiffChecker.getComponentDiffs parsedUrls key !! i = Some true.
Proof.
  unfold DiffChecker.hasDifferences. rewrite some_spec. split.
  - intros (key & Hkey & [i Hi]%some_flag_spec). eauto.
  - intros (key & i & Hkey & Hi). exists key. split; [done |].
    apply some_flag_spec. eauto.
Qed.

(** ** [hasDifferences] *)

(** X4: [hasDifferences] holds iff, for one of the seven compared
    components, some entry's value (an absent one read as the empty string)
    differs from entry 0's. *)
Theorem hasDifferences_iff (parsedUrls : list ParsedURL) :
  DiffChecker.hasDifferences parsedUrls = true
  ↔ ∃ key i url base,
      key ∈ DiffChecker.componentsToCompare
      ∧ parsedUrls !! i = Some url
      ∧ parsedUrls !! 0 = Some base
      ∧ defined_or_empty (get url key) ≠ defined_or_empty (get base key).
Proof.
  rewrite hasDifferences_flag. split.
  - intros (key & i & Hkey & Hi).
    rewrite getComponentDiffs_lookup in Hi.
    destruct (parsedUrls !! i) as [url|] eqn:Hurl; [| done].
    destruct (parsedUrls !! 0) as [base|] eqn:Hbase.
    + exists key, i, url, base. repeat split; try done.
      simpl in Hi. injection Hi as Hi. unfold strict_ne in Hi.
      apply bool_decide_eq_true_1 in Hi. congruence.
    + destruct parsedUrls; [by rewrite lookup_nil in Hurl | done].
  - intros (key & i & url & base & Hkey & Hurl & Hbase & Hne).
    exists key, i. split; [done |].
    rewrite getComponentDiffs_lookup, Hurl, Hbase. simpl. f_equal.
    apply bool_decide_eq_true_2. congruence.
Qed.

(** X5: when every entry is a failure record, [hasDifferences] is false,
    whatever the error messages. *)
Theorem no_differences_among_failures (parsedUrls : list ParsedURL) :
  (∀ url, url ∈ parsedUrls → failure_record url) →
  DiffChecker.hasDifferences parsedUrls = false.
Proof.
  intros Hfailed.
  apply not_true_is_false. rewrite hasDifferences_flag.
  intros (key & i & Hkey & Hflag).
  rewrite getComponentDiffs_lookup in Hflag.
  destruct (parsedUrls !! i) as [url|] eqn:Hurl; [| done].
  destruct (parsedUrls !! 0) as [base|] eqn:Hbase;
    [| destruct parsedUrls; [by rewrite lookup_nil in Hurl | done]].
  simpl in Hflag. injection Hflag as Hflag. unfold strict_ne in Hflag.
  apply bool_decide_eq_true_1 in Hflag.
  apply list_elem_of_lookup_2 in Hurl, Hbase.
  apply Hfailed in Hurl, Hbase.
  destruct Hurl as (_ & ? & ? & ? & ? & ? & ? & ? & ? & ? & ? & ? & ?).
  destruct Hbase as (_ & ? & ? & ? & ? & ? & ? & ? & ? & ? & ? & ? & ?).
  apply Hflag. unfold DiffChecker.componentsToCompare in Hkey.
  repeat (apply elem_of_cons in Hkey as [-> | Hkey]); simpl; try congruence.
  by apply elem_of_nil in Hkey.
Qed.

(** X5 at two failed entries with different messages. *)
Lemma no_differences_among_failures_witness :
  DiffChecker.hasDifferences [error_record "Invalid URL"; error_record "Unknown error"]
  = false.
Proof.
  apply no_differences_among_failures. intros url Hurl.
  repeat (apply elem_of_cons in Hurl as [-> | Hurl]);
    [| | by apply elem_of_nil in Hurl];
    unfold failure_record, error_record; simpl; repeat split; eauto.
Defined.

(** Membership in the [Set] of names after the two nested loops. *)
Lemma add_keys_elem (keys : list string) (acc : gset string) (param : string) :
  param ∈ foldl (λ acc key, acc ∪ {[key]}) acc keys ↔ param ∈ acc ∨ param ∈ keys.
Proof.
  revert acc. induction keys as [|key rest IH]; intros acc; simpl.
  - split; [auto | by intros [? | ?%elem_of_nil]].
  - rewrite IH, elem_of_union, elem_of_singleton, elem_of_cons. tauto.
Qed.

Lemma own_key (url : ParsedURL) (param : string) :
  is_Some (param_lookup url param)
  ↔ ∃ sp, searchParams url = Some sp ∧ param ∈ elements (dom sp : gset string).
Proof.
  unfold param_lookup. destruct (searchParams url) as [sp|]; simpl.
  - rewrite <- elem_of_dom, <- elem_of_elements. split; [eauto |].
    by intros (? & [= <-] & ?).
  - split; [by intros [? ?] | by intros (? & ? & ?)].
Qed.

Lemma allSearchParams_from (parsedUrls : list ParsedURL) (acc : gset string)
    (param : string) :
  param ∈ foldl (λ acc url,
                   match searchParams url with
                   | Some sp => foldl (λ acc key, acc ∪ {[key]}) acc (elements (dom sp))
                   | None => acc
                   end) acc parsedUrls
  ↔ param ∈ acc ∨ ∃ url, url ∈ parsedUrls ∧ is_Some (param_lookup url param).
Proof.
  revert acc. induction parsedUrls as [|url rest IH]; intros acc; simpl.
  - split; [auto | intros [? | (? & []%elem_of_nil & _)]; done].
  - rewrite IH. setoid_rewrite elem_of_cons. setoid_rewrite own_key.
    destruct (searchParams url) as [sp|] eqn:Hsp.
    + rewrite add_keys_elem. split.
      * intros [[? | ?] | (u & Hu & Hparam)]; [by left | | by right; eauto].
        right. exists url. rewrite Hsp. eauto.
      * intros [? | (u & [-> | Hu] & sp' & Hsp' & Hparam)]; [by left; left | | by right; eauto].
        rewrite Hsp in Hsp'. injection Hsp' as <-. by left; right.
    + split.
      * intros [? | (u & Hu & Hparam)]; [by left | by right; eauto].
      * intros [? | (u & [-> | Hu] & sp' & Hsp' & Hparam)]; [by left | | by right; eauto].
        congruence.
Qed.

Lemma elem_of_allSearchParams (parsedUrls : list ParsedURL) (param : string) :
  param ∈ DiffChecker.allSearchParams parsedUrls
  ↔ ∃ url, url ∈ parsedUrls ∧ is_Some (param_lookup url param).
Proof.
  unfold DiffChecker.allSearchParams. rewrite allSearchParams_from.
  split; [by intros [?%elem_of_empty | ?] | auto].
Qed.

Lemma elem_of_paramNames (parsedUrls : list ParsedURL) (param : string) :
  param ∈ URLParser.paramNames parsedUrls
  ↔ ∃ url, url ∈ parsedUrls ∧ is_Some (param_lookup url param).
Proof.
  unfold URLParser.paramNames. rewrite elem_of_list_to_set, list_elem_of_In, in_flat_map.
  setoid_rewrite <- list_elem_of_In. setoid_rewrite own_key.
  split.
  - intros (url & Hurl & Hparam). exists url. split; [done |].
    destruct (searchParams url) as [sp|]; simpl in Hparam; [eauto |].
    rewrite dom_empty_L, elements_empty in Hparam. by apply elem_of_nil in Hparam.
  - intros (url & Hurl & sp & Hsp & Hparam). exists url. split; [done |].
    by rewrite Hsp.
Qed.

(** The conjunct [&& hasDiff] of [QueryParamsView] never changes a flag. *)
Lemma queryParamRow_is_paramRow (parsedUrls : list ParsedURL) (param : string) :
  DiffChecker.queryParamRow parsedUrls param = DiffChecker.paramRow parsedUrls param.
Proof.
  unfold DiffChecker.queryParamRow, DiffChecker.paramRow, DiffChecker.paramValues.
  apply map_ext_in. intros url Hurl%list_elem_of_In. f_equal.
  destruct (strict_ne (member_or_null (param_read url param)) _) eqn:Hflag; [| done].
  simpl. apply some_spec. exists (member_or_null (param_read url param)).
  split; [| done].
  change (member_or_null (param_read url param)
          ∈ (λ u, member_or_null (param_read u param)) <$> parsedUrls).
  apply list_elem_of_fmap. eauto.
Qed.

(** ** Query parameters *)

(** X6: a name is tracked iff some entry has it as a key of its
    [searchParams], and the two ways of collecting the names (the [Set]
    filled in a loop in the diffchecker revision, [flatMap] into a [Set] in
    URLParser.tsx) give the same set. *)
Theorem parameter_names_are_the_union (parsedUrls : list ParsedURL) :
  (∀ param, param ∈ DiffChecker.allSearchParams parsedUrls
            ↔ ∃ url, url ∈ parsedUrls ∧ is_Some (param_lookup url param))
  ∧ URLParser.paramNames parsedUrls = DiffChecker.allSearchParams parsedUrls.
Proof.
  split; [intros param; apply elem_of_allSearchParams |].
  apply set_eq. intros param.
  by rewrite elem_of_allSearchParams, elem_of_paramNames.
Qed.

(** X7: the expanded query-parameter rows of URLParser.tsx are rendered
    iff there is at least one parameter name to show. *)
Theorem showParams_iff_some_name (parsedUrls : list ParsedURL) :
  URLParser.showParams parsedUrls = true
  ↔ ∃ param, param ∈ URLParser.paramNames parsedUrls.
Proof.
  setoid_rewrite elem_of_paramNames. unfold URLParser.showParams. rewrite some_spec.
  setoid_rewrite own_key. split.
  - intros (url & Hurl & Hshow). destruct (searchParams url) as [sp|] eqn:Hsp; [| done].
    simpl in Hshow. apply bool_decide_eq_true_1 in Hshow.
    destruct (elements (dom sp)) as [|param keys] eqn:Hkeys; [simpl in Hshow; lia |].
    exists param, url. split; [done |]. exists sp. rewrite Hkeys. split; [done | by left].
  - intros (param & url & Hurl & sp & Hsp & Hparam). exists url. split; [done |].
    rewrite Hsp. simpl. apply bool_decide_eq_true_2.
    destruct (elements (dom sp)); [by apply elem_of_nil in Hparam | simpl; lia].
Qed.

(** X8: [QueryParamsView] returns its "no query parameters" message iff no
    entry has any parameter; otherwise it shows the names and, for every
    name, exactly the cells and flags of the diffchecker view (its extra
    test [hasDiff] changes nothing). *)
Theorem QueryParamsView_agrees_with_diff_view (parsedUrls : list ParsedURL) :
  match DiffChecker.QueryParamsView parsedUrls with
  | None => ∀ url param, url ∈ parsedUrls → param_lookup url param = None
  | Some (names, rows) =>
      names = DiffChecker.allSearchParams parsedUrls
      ∧ (∃ url param, url ∈ parsedUrls ∧ is_Some (param_lookup url param))
      ∧ ∀ param, rows param = DiffChecker.paramRow parsedUrls param
  end.
Proof.
  unfold DiffChecker.QueryParamsView.
  destruct (decide (size (DiffChecker.allSearchParams parsedUrls) = 0)) as [Hnone | Hsome].
  - intros url param Hurl. apply size_empty_inv in Hnone.
    apply eq_None_not_Some. intros Hparam.
    assert (Hin : param ∈ DiffChecker.allSearchParams parsedUrls)
      by (apply elem_of_allSearchParams; eauto).
    rewrite (Hnone param) in Hin. by apply elem_of_empty in Hin.
  - split; [done |]. split; [| apply queryParamRow_is_paramRow].
    apply size_non_empty_iff in Hsome.
    destruct (set_choose_or_empty (DiffChecker.allSearchParams parsedUrls))
      as [[param Hparam] | Hempty]; [| done].
    apply elem_of_allSearchParams in Hparam as (url & Hurl & Hsome').
    eauto.
Qed.

(** X9: in the query-parameter table of URLParser.tsx the cell of entry
    [i] shows what [url.searchParams?.[param] || "-"] evaluates to (the
    entry's own value, "-" for a missing or empty one, the inherited member
    for a name of [Object.prototype] that the entry does not hold), every
    cell of a row carries the same flag, and the flag is set iff some
    entry's displayed value differs from entry 0's displayed value; so a
    differing parameter highlights the whole row, the baseline's cell
    included. *)
Theorem table_row_flag_is_uniform (parsedUrls : list ParsedURL) (param : string)
    (i : nat) (url : ParsedURL) :
  parsedUrls !! i = Some url →
  ∃ flag,
    URLParser.paramRow parsedUrls param !! i
      = Some (member_or_dash (param_read url param), flag)
    ∧ (∀ j cell, URLParser.paramRow parsedUrls param !! j = Some cell → cell.2 = flag)
    ∧ (flag = true
       ↔ ∃ other base,
           other ∈ parsedUrls ∧ parsedUrls !! 0 = Some base
           ∧ member_or_dash (param_read other param)
             ≠ member_or_dash (param_read base param)).
Proof.
  intros Hi. unfold URLParser.paramRow.
  set (allValues := map (λ u, member_or_dash (param_read u param)) parsedUrls).
  exists (some (λ v, strict_ne v (allValues !! 0)) allValues).
  split; [| split].
  - change (((λ url, (member_or_dash (param_read url param),
                     some (λ v, strict_ne v (allValues !! 0)) allValues))
              <$> parsedUrls) !! i = Some
              (member_or_dash (param_read url param),
               some (λ v, strict_ne v (allValues !! 0)) allValues)).
    by rewrite list_lookup_fmap, Hi.
  - intros j cell Hj.
    change (((λ url, (member_or_dash (param_read url param),
                     some (λ v, strict_ne v (allValues !! 0)) allValues))
              <$> parsedUrls) !! j = Some cell) in Hj.
    rewrite list_lookup_fmap in Hj. destruct (parsedUrls !! j); [| done].
    by injection Hj as <-.
  - rewrite some_spec. unfold allValues.
    change (map (λ u, member_or_dash (param_read u param)) parsedUrls)
      with ((λ u, member_or_dash (param_read u param)) <$> parsedUrls).
    rewrite list_lookup_fmap. unfold strict_ne. split.
    + intros (v & (other & -> & Hother)%list_elem_of_fmap & Hflag).
      apply bool_decide_eq_true_1 in Hflag.
      destruct (parsedUrls !! 0) as [base|] eqn:Hbase.
      * exists other, base. repeat split; try done. simpl in Hflag. congruence.
      * destruct parsedUrls; [by apply elem_of_nil in Hother | done].
    + intros (other & base & Hother & -> & Hne).
      exists (member_or_dash (param_read other param)). split.
      * apply list_elem_of_fmap. eauto.
      * apply bool_decide_eq_true_2. simpl. congruence.
Qed.

(** X9 at entry 1 of the set parsed from "https://h/?toString=1" and
    "https://h/", for the name "toString": entry 0 holds the name, entry 1
    reads it from the prototype, and the whole row is flagged. *)
Lemma table_row_flag_is_uniform_witness :
  ∃ parsedUrls present absent,
    URLParser.parseAll Platform.new_URL ["https://h/?toString=1"; "https://h/"]
      = Normal parsedUrls
    ∧ parsedUrls = [present; absent]
    ∧ member_or_dash (param_read present "toString") = Str "1"
    ∧ member_or_dash (param_read absent "toString") = Inherited "toString"
    ∧ URLParser.paramRow parsedUrls "toString"
        = [(Str "1", true); (Inherited "toString", true)]
    ∧ ∃ flag,
        URLParser.paramRow parsedUrls "toString" !! 1
          = Some (member_or_dash (param_read absent "toString"), flag)
        ∧ (∀ j cell,
             URLParser.paramRow parsedUrls "toString" !! j = Some cell → cell.2 = flag)
        ∧ (flag = true
           ↔ ∃ other base,
               other ∈ parsedUrls ∧ parsedUrls !! 0 = Some base
               ∧ member_or_dash (param_read other "toString")
                 ≠ member_or_dash (param_read base "toString")).
Proof.
  do 3 eexists. split; [by vm_compute |]. split; [reflexivity |].
  split; [by vm_compute |]. split; [by vm_compute |]. split; [by vm_compute |].
  apply table_row_flag_is_uniform. reflexivity.
Defined.

(** The parts of an entry with an error, and of one without. *)
Lemma generatePartMap_failed (url : ParsedURL) (part : string) :
  truthy (error url) = true → URLParser.generatePartMap url !! part = None.
Proof. intros Herror. unfold URLParser.generatePartMap. by rewrite Herror. Qed.

Lemma generatePartMap_parts (url : ParsedURL) (part : string) :
  truthy (error url) = false →
  part ∈ URLParser.parts → is_Some (URLParser.generatePartMap url !! part).
Proof.
  intros Herror Hpart. unfold URLParser.generatePartMap. rewrite Herror.
  unfold URLParser.parts in Hpart.
  repeat (apply elem_of_cons in Hpart as [-> | Hpart]);
    [.. | by apply elem_of_nil in Hpart];
    cbn [list_to_map foldr curry fst snd uncurry];
    rewrite ?lookup_insert_eq, ?lookup_insert_ne by done;
    try done.
  all: repeat (rewrite lookup_insert_ne by done); by rewrite lookup_insert_eq.
Qed.

(** ** The side-by-side view *)

(** X10: in [SideBySideDiff], an entry with a (truthy) error has no parts,
    so against an entry without error all seven parts are flagged, in
    either order, and against another entry with an error none is. *)
Theorem side_by_side_with_a_failed_entry (failed other : ParsedURL) :
  truthy (error failed) = true →
  (truthy (error other) = false →
     URLParser.SideBySideDiff [failed; other]
       = Some (map (λ part, (part, true)) URLParser.parts)
     ∧ URLParser.SideBySideDiff [other; failed]
       = Some (map (λ part, (part, true)) URLParser.parts))
  ∧ (truthy (error other) = true →
     URLParser.SideBySideDiff [failed; other]
       = Some (map (λ part, (part, false)) URLParser.parts)).
Proof.
  intros Hfailed. unfold URLParser.SideBySideDiff. split.
  - intros Hother. split; f_equal; apply map_ext_in; intros part Hpart%list_elem_of_In;
      f_equal; apply bool_decide_eq_true_2;
      rewrite (generatePartMap_failed failed part Hfailed);
      destruct (generatePartMap_parts other part Hother Hpart) as [v ->]; done.
  - intros Hother. f_equal. apply map_ext_in. intros part _. f_equal.
    apply bool_decide_eq_false_2.
    rewrite (generatePartMap_failed failed part Hfailed).
    rewrite (generatePartMap_failed other part Hother). auto.
Qed.

(** X10 at the entries parsed from "not a url" and "https://h/". *)
Lemma side_by_side_with_a_failed_entry_witness :
  ∃ parsedUrls failed other,
    URLParser.parseAll Platform.new_URL ["not a url"; "https://h/"] = Normal parsedUrls
    ∧ parsedUrls = [failed; other]
    ∧ (truthy (error other) = false →
         URLParser.SideBySideDiff [failed; other]
           = Some (map (λ part, (part, true)) URLParser.parts)
         ∧ URLParser.SideBySideDiff [other; failed]
           = Some (map (λ part, (part, true)) URLParser.parts))
    ∧ (truthy (error other) = true →
         URLParser.SideBySideDiff [failed; other]
           = Some (map (λ part, (part, false)) URLParser.parts)).
Proof.
  do 3 eexists. split; [by vm_compute |]. split; [reflexivity |].
  apply side_by_side_with_a_failed_entry. reflexivity.
Defined.

(** X11: [SideBySideDiff] flags the same parts whichever of the two
    entries comes first, and flags no part when an entry is compared with
    itself. *)
Theorem side_by_side_symmetric (url1 url2 : ParsedURL) :
  URLParser.SideBySideDiff [url1; url2] = URLParser.SideBySideDiff [url2; url1]
  ∧ URLParser.SideBySideDiff [url1; url1]
    = Some (map (λ part, (part, false)) URLParser.parts).
Proof.
  unfold URLParser.SideBySideDiff. split; f_equal; apply map_ext; intros part; f_equal.
  - apply bool_decide_ext. split; intros Hne Heq; by apply Hne.
  - apply bool_decide_eq_false_2. auto.
Qed.

(** X12: for an input that the platform accepts, the "auth" part that
    [generatePartMap] derives from the record of URLParser.tsx equals the
    [auth] field that the diffchecker revision stores iff the user name is
    non-empty or the password is empty; with an empty user name the part is
    empty, so a password-only credential is dropped from the side-by-side
    view. *)
Theorem auth_part_agrees_unless_password_only
    (new_URL : string → completion URL) (inputUrl : string) (parsed : URL) :
  new_URL inputUrl = Normal parsed →
  ∃ p p',
    URLParser.parseUrl new_URL inputUrl = Normal p
    ∧ DiffChecker.parseUrl new_URL inputUrl = Normal p'
    ∧ (URLParser.generatePartMap p !! "auth" = auth p'
       ↔ URL_username parsed ≠ "" ∨ URL_password parsed = "")
    ∧ (URL_username parsed = "" → URLParser.generatePartMap p !! "auth" = Some "").
Proof.
  intros Hparsed. unfold URLParser.parseUrl, DiffChecker.parseUrl.
  rewrite Hparsed. simpl. do 2 eexists. split; [done |]. split; [done |].
  unfold URLParser.generatePartMap. simpl.
  rewrite lookup_insert_ne by done. rewrite lookup_insert_eq.
  unfold truthy.
  destruct (String.eqb_spec (URL_username parsed) "") as [Hu | Hu];
    destruct (String.eqb_spec (URL_password parsed) "") as [Hp | Hp];
    simpl; rewrite ?Hu, ?Hp; simpl; split; try done; try tauto.
  split; [discriminate |]. intros [? | ?]; done.
Qed.

(** X12 at "https://:pw@h/" on the reference platform. *)
Lemma auth_part_agrees_unless_password_only_witness :
  ∃ parsed p p',
    Platform.new_URL "https://:pw@h/" = Normal parsed
    ∧ URL_username parsed = "" ∧ URL_password parsed = "pw"
    ∧ URLParser.parseUrl Platform.new_URL "https://:pw@h/" = Normal p
    ∧ DiffChecker.parseUrl Platform.new_URL "https://:pw@h/" = Normal p'
    ∧ (URLParser.generatePartMap p !! "auth" = auth p'
       ↔ URL_username parsed ≠ "" ∨ URL_password parsed = "")
    ∧ (URL_username parsed = "" → URLParser.generatePartMap p !! "auth" = Some "").
Proof.
  eexists.
  destruct (auth_part_agrees_unless_password_only Platform.new_URL "https://:pw@h/" _
              eq_refl) as (p & p' & H).
  exists p, p'. split; [reflexivity |]. split; [reflexivity |]. split; [reflexivity |].
  exact H.
Defined.

(** ** Parsing a list of inputs *)

(** [mapM] in [completion] returns normally iff every element does. *)
Lemma mapM_Normal {A B : Type} (f : A → completion B) (l : list A) (ys : list B) :
  mapM f l = Normal ys ↔ Forall2 (λ x y, f x = Normal y) l ys.
Proof.
  revert ys. induction l as [|x l IH]; intros ys; simpl.
  - split; [intros [= <-]; constructor | by intros ->%Forall2_nil_inv_l].
  - unfold mbind, completion_bind. destruct (f x) as [y | e] eqn:Hx.
    + destruct (mapM f l) as [k | e] eqn:Hl; simpl.
      * split.
        -- intros [= <-]. constructor; [done | by apply IH].
        -- intros (y' & k' & Hy & Hk & ->)%Forall2_cons_inv_l.
           apply IH in Hk. rewrite Hx in Hy.
           injection Hy as <-. injection Hk as <-. done.
      * split; [done |].
        intros (y' & k' & Hy & Hk & ->)%Forall2_cons_inv_l.
        by apply IH in Hk.
    + split; [done |].
      intros (y' & k' & Hy & Hk & ->)%Forall2_cons_inv_l. by rewrite Hx in Hy.
Qed.

Lemma mapM_total {A B : Type} (f : A → completion B) (l : list A) :
  (∀ x, ∃ y, f x = Normal y) → ∃ ys, mapM f l = Normal ys.
Proof.
  intros Hf. induction l as [|x l [k Hk]].
  - exists []. apply mapM_Normal. constructor.
  - destruct (Hf x) as [y Hy]. exists (y :: k). apply mapM_Normal.
    constructor; [done | by apply mapM_Normal].
Qed.

Lemma URLParser_parseUrl_total (new_URL : string → completion URL) (inputUrl : string) :
  ∃ p, URLParser.parseUrl new_URL inputUrl = Normal p.
Proof. unfold URLParser.parseUrl. destruct (new_URL inputUrl); simpl; by eexists. Qed.

Lemma DiffChecker_parseUrl_total (new_URL : string → completion URL) (inputUrl : string) :
  ∃ p, DiffChecker.parseUrl new_URL inputUrl = Normal p.
Proof. unfold DiffChecker.parseUrl. destruct (new_URL inputUrl); simpl; by eexists. Qed.

(** X13: on every platform, parsing a list of lines never throws and
    yields one entry per line, entry [i] being [parseUrl] of line [i]: a
    line that fails to parse does not affect the others. *)
Theorem parseAll_entry_per_line (new_URL : string → completion URL)
    (lines : list string) :
  ∃ parsedUrls parsedUrls',
    URLParser.parseAll new_URL lines = Normal parsedUrls
    ∧ DiffChecker.parseAll new_URL lines = Normal parsedUrls'
    ∧ length parsedUrls = length lines ∧ length parsedUrls' = length lines
    ∧ ∀ i line, lines !! i = Some line →
        ∃ p p',
          URLParser.parseUrl new_URL line = Normal p ∧ parsedUrls !! i = Some p
          ∧ DiffChecker.parseUrl new_URL line = Normal p' ∧ parsedUrls' !! i = Some p'.
Proof.
  destruct (mapM_total (URLParser.parseUrl new_URL) lines
              (URLParser_parseUrl_total new_URL)) as [parsedUrls Hall].
  destruct (mapM_total (DiffChecker.parseUrl new_URL) lines
              (DiffChecker_parseUrl_total new_URL)) as [parsedUrls' Hall'].
  exists parsedUrls, parsedUrls'. split; [done |]. split; [done |].
  apply mapM_Normal in Hall, Hall'.
  split; [symmetry; by eapply Forall2_length |].
  split; [symmetry; by eapply Forall2_length |].
  intros i line Hline.
  destruct (Forall2_lookup_l _ _ _ _ _ Hall Hline) as (p & Hp & Hparse).
  destruct (Forall2_lookup_l _ _ _ _ _ Hall' Hline) as (p' & Hp' & Hparse').
  by exists p, p'.
Qed.

(** X14: [handleCompare] completes normally; [urls] is the list of the
    trimmed lines of the input text without the empty ones, in the order
    of the lines and with their repetitions, and [parsedUrls] is aligned
    with it (same length, [parsedUrls[i]] is [parseUrl] of [urls[i]]). *)
Theorem handleCompare_aligns_urls (new_URL : string → completion URL)
    (split_lines : string → list string) (trim : string → string)
    (inputText : string) :
  ∃ urls parsedUrls,
    URLParser.handleCompare new_URL split_lines trim inputText
      = Normal (urls, parsedUrls)
    ∧ urls = filter (λ url, url ≠ "") (trim <$> split_lines inputText)
    ∧ length parsedUrls = length urls
    ∧ ∀ i url, urls !! i = Some url →
        ∃ p, parsedUrls !! i = Some p ∧ URLParser.parseUrl new_URL url = Normal p.
Proof.
  unfold URLParser.handleCompare.
  set (lines := filter _ _).
  destruct (mapM_total (URLParser.parseUrl new_URL) lines
              (URLParser_parseUrl_total new_URL)) as [parsedUrls Hall].
  exists lines, parsedUrls. rewrite Hall.
  split; [done |]. apply mapM_Normal in Hall. split; [| split].
  - unfold lines. apply list_filter_iff. intros url. unfold truthy.
    destruct (String.eqb_spec url ""); simpl; split; congruence.
  - symmetry. by eapply Forall2_length.
  - intros i url Hurl.
    destruct (Forall2_lookup_l _ _ _ _ _ Hall Hurl) as (p & Hp & Hparse). eauto.
Qed.

(** X15: on a platform whose [Error] messages are non-empty, the results
    of the diffchecker revision are rendered ([anyValid]) iff the platform
    accepts at least one of the inputs. *)
Theorem anyValid_iff_some_line_parses (new_URL : string → completion URL)
    (urlList : list string) (parsedUrls : list ParsedURL) :
  (∀ inputUrl message, new_URL inputUrl = Throw (ErrorObject message) → message ≠ "") →
  DiffChecker.parseAll new_URL urlList = Normal parsedUrls →
  DiffChecker.anyValid parsedUrls = true
  ↔ ∃ line parsed, line ∈ urlList ∧ new_URL line = Normal parsed.
Proof.
  intros Hmessage Hall%mapM_Normal. unfold DiffChecker.anyValid. rewrite some_spec.
  split.
  - intros (p & [i Hp]%list_elem_of_lookup & Hvalid).
    destruct (Forall2_lookup_r _ _ _ _ _ Hall Hp) as (line & Hline & Hparse).
    exists line. unfold DiffChecker.parseUrl in Hparse.
    destruct (new_URL line) as [parsed | e] eqn:Hnew.
    + exists parsed. split; [by eapply list_elem_of_lookup_2 | done].
    + simpl in Hparse. injection Hparse as <-. simpl in Hvalid.
      destruct e as [message |]; simpl in Hvalid; [| done].
      apply Hmessage in Hnew.
      destruct (String.eqb_spec message ""); done.
  - intros (line & parsed & [i Hline]%list_elem_of_lookup & Hnew).
    destruct (Forall2_lookup_l _ _ _ _ _ Hall Hline) as (p & Hp & Hparse).
    exists p. split; [by eapply list_elem_of_lookup_2 |].
    unfold DiffChecker.parseUrl in Hparse. rewrite Hnew in Hparse.
    simpl in Hparse. by injection Hparse as <-.
Qed.

(** X15 at the inputs "bad" and "https://h/" on the reference platform. *)
Lemma anyValid_iff_some_line_parses_witness :
  ∃ parsedUrls,
    DiffChecker.parseAll Platform.new_URL ["bad"; "https://h/"] = Normal parsedUrls
    ∧ (DiffChecker.anyValid parsedUrls = true
       ↔ ∃ line parsed, line ∈ ["bad"; "https://h/"]
                        ∧ Platform.new_URL line = Normal parsed).
Proof.
  eexists. split; [by vm_compute |].
  apply (anyValid_iff_some_line_parses Platform.new_URL _ _ new_URL_message).
  by vm_compute.
Defined.

(** [splice(index, 1)] past the end removes nothing. *)
Lemma delete_out_of_range {A : Type} (l : list A) (i : nat) :
  length l ≤ i → delete i l = l.
Proof.
  revert i. induction l as [|x l IH]; intros i Hi; [by destruct i |].
  destruct i as [|i]; simpl in *; [lia |]. f_equal. apply IH. lia.
Qed.

(** ** Editing the list of inputs *)

(** X16: starting from a non-empty list of inputs, adding and removing
    never leave it empty; removing shortens the list by one exactly when
    more than one input is left and the index is in range; changing an
    input keeps the length; and removing the input just added restores the
    list. *)
Theorem urlList_never_emptied (urlList : list string) (index : nat) (value : string) :
  urlList ≠ [] →
  DiffChecker.handleAddUrl urlList ≠ []
  ∧ DiffChecker.handleRemoveUrl index urlList ≠ []
  ∧ (length (DiffChecker.handleRemoveUrl index urlList)
     = if decide (1 < length urlList ∧ index < length urlList)
       then length urlList - 1 else length urlList)
  ∧ (∀ newList, DiffChecker.handleUrlChange index value urlList = Some newList →
       length newList = length urlList)
  ∧ DiffChecker.handleRemoveUrl (length urlList) (DiffChecker.handleAddUrl urlList)
    = urlList.
Proof.
  intros Hne. assert (0 < length urlList) by (destruct urlList; [done | simpl; lia]).
  unfold DiffChecker.handleAddUrl, DiffChecker.handleRemoveUrl, DiffChecker.handleUrlChange.
  assert (Hlen : length (delete index urlList)
     = if decide (index < length urlList) then length urlList - 1 else length urlList).
  { case_decide as Hi.
    - apply length_delete. by apply lookup_lt_is_Some.
    - rewrite delete_out_of_range by lia. done. }
  split; [intros Hnil; by apply app_eq_nil in Hnil as [_ ?] |].
  split; [| split; [| split]].
  - destruct (decide (1 < length urlList)) as [Hlong | Hshort]; [| done].
    intros Hnil. apply (f_equal length) in Hnil. rewrite Hlen in Hnil.
    simpl in Hnil. destruct (decide (index < length urlList)); lia.
  - destruct (decide (1 < length urlList)) as [Hlong | Hshort].
    + rewrite Hlen. destruct (decide (index < length urlList)).
      * by rewrite decide_True.
      * rewrite decide_False; [done | lia].
    + rewrite decide_False; [done | lia].
  - intros newList. destruct (decide (index < length urlList)); [| done].
    intros [= <-]. apply length_insert.
  - rewrite length_app. simpl. rewrite decide_True by lia.
    rewrite (delete_middle urlList [] ""). apply app_nil_r.
Qed.

(** X16 at the single input "https://h/". *)
Lemma urlList_never_emptied_witness :
  DiffChecker.handleAddUrl ["https://h/"] ≠ []
  ∧ DiffChecker.handleRemoveUrl 0 ["https://h/"] ≠ []
  ∧ (length (DiffChecker.handleRemoveUrl 0 ["https://h/"])
     = if decide (1 < length ["https://h/"] ∧ 0 < length ["https://h/"])
       then length ["https://h/"] - 1 else length ["https://h/"])
  ∧ (∀ newList, DiffChecker.handleUrlChange 0 "x" ["https://h/"] = Some newList →
       length newList = length ["https://h/"])
  ∧ DiffChecker.handleRemoveUrl (length ["https://h/"])
      (DiffChecker.handleAddUrl ["https://h/"])
    = ["https://h/"].
Proof. apply urlList_never_emptied. discriminate. Defined.

(** X17: re-parsing the whole list after an edit agrees with editing the
    parsed entries: changing input [index] replaces entry [index] by its
    parse, adding appends the parse of the empty string, and removing
    deletes entry [index] (when more than one input is left). *)
Theorem reparse_follows_edits (new_URL : string → completion URL)
    (urlList : list string) (parsedUrls : list ParsedURL) (index : nat) :
  DiffChecker.parseAll new_URL urlList = Normal parsedUrls →
  (∀ value newList p,
     DiffChecker.handleUrlChange index value urlList = Some newList →
     DiffChecker.parseUrl new_URL value = Normal p →
     DiffChecker.parseAll new_URL newList = Normal (<[index := p]> parsedUrls))
  ∧ (∀ p, DiffChecker.parseUrl new_URL "" = Normal p →
       DiffChecker.parseAll new_URL (DiffChecker.handleAddUrl urlList)
         = Normal (parsedUrls ++ [p]))
  ∧ DiffChecker.parseAll new_URL (DiffChecker.handleRemoveUrl index urlList)
    = Normal (if decide (1 < length urlList) then delete index parsedUrls
              else parsedUrls).
Proof.
  unfold DiffChecker.parseAll. intros Hall. pose proof Hall as Hall2.
  apply mapM_Normal in Hall2.
  split; [| split].
  - intros value newList p Hchange Hp. apply mapM_Normal.
    unfold DiffChecker.handleUrlChange in Hchange.
    case_decide; [| done]. injection Hchange as <-.
    by apply Forall2_insert.
  - intros p Hp. apply mapM_Normal. unfold DiffChecker.handleAddUrl.
    apply Forall2_app; [done |]. by constructor.
  - unfold DiffChecker.handleRemoveUrl. case_decide; [| done].
    apply mapM_Normal. by apply Forall2_delete.
Qed.

(** X17 at the inputs "https://h/" and "bad" on the reference platform. *)
Lemma reparse_follows_edits_witness :
  ∃ parsedUrls,
    DiffChecker.parseAll Platform.new_URL ["https://h/"; "bad"] = Normal parsedUrls
    ∧ (∀ value newList p,
         DiffChecker.handleUrlChange 1 value ["https://h/"; "bad"] = Some newList →
         DiffChecker.parseUrl Platform.new_URL value = Normal p →
         DiffChecker.parseAll Platform.new_URL newList = Normal (<[1 := p]> parsedUrls))
    ∧ (∀ p, DiffChecker.parseUrl Platform.new_URL "" = Normal p →
         DiffChecker.parseAll Platform.new_URL
           (DiffChecker.handleAddUrl ["https://h/"; "bad"])
           = Normal (parsedUrls ++ [p]))
    ∧ DiffChecker.parseAll Platform.new_URL
        (DiffChecker.handleRemoveUrl 1 ["https://h/"; "bad"])
      = Normal (if decide (1 < length ["https://h/"; "bad"]) then delete 1 parsedUrls
                else parsedUrls).
Proof.
  eexists. split; [by vm_compute |].
  apply reparse_follows_edits. by vm_compute.
Defined.

Lemma same_default_same_display (v w : option string) :
  defined_or_empty v = defined_or_empty w → or_default v "-" = or_default w "-".
Proof. case_truthy; intuition congruence. Qed.

(** ** The component table *)

(** X18: every row of [ComponentTable] has one cell per entry, and a cell
    that is not flagged displays the same text as the baseline's cell. *)
Theorem unflagged_cell_shows_baseline_text (parsedUrls : list ParsedURL)
    (component : ComponentKey) (cells : list (string * bool)) :
  (component, cells) ∈ DiffChecker.ComponentTable parsedUrls →
  length cells = length parsedUrls
  ∧ ∀ i value, cells !! i = Some (value, false) →
      ∃ flag, cells !! 0 = Some (value, flag).
Proof.
  unfold DiffChecker.ComponentTable.
  intros Hrow. change (map ?f ?l) with (f <$> l) in Hrow.
  apply list_elem_of_fmap in Hrow as (key & [= <- ->] & _).
  split; [apply length_imap |].
  intros i value Hcell. rewrite list_lookup_imap in *.
  destruct (parsedUrls !! i) as [url|] eqn:Hurl; [| done].
  simpl in Hcell. injection Hcell as <- Hflag.
  rewrite getComponentDiffs_lookup, Hurl in Hflag.
  destruct (parsedUrls !! 0) as [base|] eqn:Hbase;
    [| destruct parsedUrls; [by rewrite lookup_nil in Hurl | done]].
  simpl in *. eexists. f_equal. f_equal. symmetry.
  apply same_default_same_display.
  unfold strict_ne in Hflag. apply bool_decide_eq_false_1 in Hflag.
  destruct (decide (defined_or_empty (get url component) = defined_or_empty (get base component)));
    [done |]. exfalso. apply Hflag. congruence.
Qed.

(** X18 at the set parsed from "https://h/a" and "https://h/b": in the
    hostname row the cell of entry 1 is not flagged and shows "h", the
    baseline's text; in the pathname row it is flagged and shows "/b"
    against the baseline's "/a". *)
Lemma unflagged_cell_shows_baseline_text_witness :
  ∃ parsedUrls,
    DiffChecker.parseAll Platform.new_URL ["https://h/a"; "https://h/b"]
      = Normal parsedUrls
    ∧ (key_pathname, [("/a", false); ("/b", true)])
        ∈ DiffChecker.ComponentTable parsedUrls
    ∧ (key_hostname, [("h", false); ("h", false)])
        ∈ DiffChecker.ComponentTable parsedUrls
    ∧ length [("h", false); ("h", false)] = length parsedUrls
    ∧ ∀ i value, [("h", false); ("h", false)] !! i = Some (value, false) →
        ∃ flag, [("h", false); ("h", false)] !! 0 = Some (value, flag).
Proof.
  eexists. split; [by vm_compute |].
  split; [apply list_elem_of_lookup; by exists 5 |].
  match goal with |- ?row ∧ _ => assert (Hrow : row) end.
  { apply list_elem_of_lookup. by exists 3. }
  split; [exact Hrow |].
  exact (unflagged_cell_shows_baseline_text _ _ _ Hrow).
Defined.
